(** * Conway's Game of Life (src/main.c): a shallow embedding and its properties

    The C program keeps a [world] of heap-allocated rows of [cell]s and
    updates it in place.  Here a world is a record value threaded through
    the functions; a row is a list indexed with stdpp's lookup and updated
    with [alter]; C's integer types are integers of [Z] with the conversions
    between them written out (LP64: [int] has 32 bits, [size_t] and [long]
    have 64). *)

From Stdlib Require Import ZArith Lia String Ascii DecimalString.
From stdpp Require Import base list numbers.

Local Open Scope Z_scope.

(** ** C integer types *)

Module CInt.

(** Conversion to [size_t]: reduction modulo 2^64. *)
Definition size_t_of (z : Z) : Z := z mod 2 ^ 64.

(** Conversion to [int]: the value is reduced modulo 2^32 into the signed
    range (what gcc and clang do for an out-of-range value). *)
Definition int_of (z : Z) : Z := (z + 2 ^ 31) mod 2 ^ 32 - 2 ^ 31.

(** Conversion to [long], for printf's [%ld]. *)
Definition long_of (z : Z) : Z := (z + 2 ^ 63) mod 2 ^ 64 - 2 ^ 63.

Definition is_int (z : Z) : Prop := - 2 ^ 31 <= z < 2 ^ 31.
Definition is_size_t (z : Z) : Prop := 0 <= z < 2 ^ 64.

(** The value of a C condition. *)
Definition of_bool (b : bool) : Z := if b then 1 else 0.

(** The truth of a C value. *)
Definition truthy (z : Z) : bool := negb (z =? 0).

End CInt.
Import CInt.

(** ** The data model *)

(** [typedef struct { int alive; size_t x; size_t y; } cell;] *)
Record cell : Type := Cell { c_alive : Z; c_x : Z; c_y : Z }.

(** [typedef struct { cell **cells; size_t width; size_t height; int iteration; } world;]
    [w_cells] is the array of rows: [w->cells[y][x]] is entry [x] of row [y]. *)
Record world : Type := World {
  w_cells : list (list cell);
  w_width : Z;
  w_height : Z;
  w_iteration : Z
}.

Definition MIN_SURVIVAL : Z := 1.
Definition MAX_SURVIVAL : Z := 4.
Definition SPAWN : Z := 3.

(** What [calloc] leaves in a cell. *)
Definition zero_cell : cell := Cell 0 0 0.

(** The read [w->cells[y][x]].  The C program indexes without a check; a read
    outside the arrays is undefined there and gives [zero_cell] here
    ([cell_at_lookup]: inside a well-shaped world the read is the array
    entry). *)
Definition cell_at (w : world) (y x : Z) : cell :=
  default zero_cell (w_cells w !! Z.to_nat y ≫= λ row, row !! Z.to_nat x).

(** The write [w->cells[y][x] = c]. *)
Definition store_cell (w : world) (y x : Z) (c : cell) : world :=
  {| w_cells := alter (alter (λ _, c) (Z.to_nat x)) (Z.to_nat y) (w_cells w);
     w_width := w_width w;
     w_height := w_height w;
     w_iteration := w_iteration w |}.

(** The write [w->cells[y][x].alive = a]. *)
Definition set_alive (w : world) (y x : Z) (a : Z) : world :=
  let c := cell_at w y x in
  store_cell w y x {| c_alive := a; c_x := c_x c; c_y := c_y c |}.

(** [for (size_t y = 0; y < height; y++) for (size_t x = 0; x < width; x++) body]
    threading the state [s] through the bodies in row-major order. *)
Definition for_each_cell {St : Type} (height width : Z)
    (body : St → Z → Z → St) (s : St) : St :=
  foldl (λ s y, foldl (λ s x, body s y x) s (seqZ 0 width)) s (seqZ 0 height).

(** The same pair of loops when the body may [return]: does [p] hold at
    some cell. *)
Definition some_cell (height width : Z) (p : Z → Z → bool) : bool :=
  existsb (λ y, existsb (λ x, p y x) (seqZ 0 width)) (seqZ 0 height).

(** ** Grid operations *)

(** [world_init(int width, int height)]: the [int] arguments are converted to
    [size_t] when stored and when compared with the [size_t] loop counters. *)
Definition world_init (width height : Z) : world :=
  {| w_cells :=
       (λ y, (λ x, {| c_alive := 0; c_x := x; c_y := y |})
               <$> seqZ 0 (size_t_of width))
         <$> seqZ 0 (size_t_of height);
     w_width := size_t_of width;
     w_height := size_t_of height;
     w_iteration := 0 |}.

(** [world_copy]: a fresh world from [world_init] (whose parameters are
    [int]s), then the alive flag of every cell copied over. *)
Definition world_copy (w : world) : world :=
  let copy := world_init (int_of (w_width w)) (int_of (w_height w)) in
  for_each_cell (w_height w) (w_width w)
    (λ copy y x, set_alive copy y x (c_alive (cell_at w y x))) copy.

(** [world_compare]: 0 when the worlds hold the same data, 1 otherwise. *)
Definition world_compare (w1 w2 : world) : Z :=
  if negb (w_width w1 =? w_width w2) || negb (w_height w1 =? w_height w2)
  then 1
  else if some_cell (w_height w1) (w_width w1)
            (λ y x, negb (c_alive (cell_at w1 y x) =? c_alive (cell_at w2 y x)))
       then 1
       else 0.

(** [world_is_empty]: 1 when no cell is alive, 0 otherwise. *)
Definition world_is_empty (w : world) : Z :=
  if some_cell (w_height w) (w_width w) (λ y x, truthy (c_alive (cell_at w y x)))
  then 0
  else 1.

(** [world_is_in_bounds(w, size_t x, size_t y)]. *)
Definition world_is_in_bounds (w : world) (x y : Z) : Z :=
  let x_in_bounds := of_bool ((0 <=? x) && (x <? w_width w)) in
  let y_in_bounds := of_bool ((0 <=? y) && (y <? w_height w)) in
  of_bool (truthy x_in_bounds && truthy y_in_bounds).

(** ** The cell rule *)

(** The values of [x_offset] and of [y_offset]. *)
Definition offsets : list Z := [-1; 0; 1].

(** The body of the counting loops of [cell_update].  [c->x + x_offset] is
    computed in [size_t] and stored in an [int]; the [int]s are converted
    back to [size_t] for [world_is_in_bounds] and index the arrays as they
    are. *)
Definition count_neighbour (w : world) (c : cell)
    (alive_neighbours y_offset x_offset : Z) : Z :=
  let neighbour_x := int_of (size_t_of (c_x c + size_t_of x_offset)) in
  let neighbour_y := int_of (size_t_of (c_y c + size_t_of y_offset)) in
  let is_neighbour_current_cell := (x_offset =? 0) && (y_offset =? 0) in
  if negb is_neighbour_current_cell
     && truthy (world_is_in_bounds w (size_t_of neighbour_x)
                                     (size_t_of neighbour_y))
  then int_of (alive_neighbours + c_alive (cell_at w neighbour_y neighbour_x))
  else alive_neighbours.

(** The counting loops of [cell_update]. *)
Definition alive_neighbours (w : world) (c : cell) : Z :=
  foldl (λ alive_neighbours y_offset,
    foldl (λ alive_neighbours x_offset,
      count_neighbour w c alive_neighbours y_offset x_offset)
    alive_neighbours offsets) 0 offsets.

(** The last statement of [cell_update]: the next alive flag from the
    current one and the count. *)
Definition next_alive (alive n : Z) : Z :=
  if truthy alive
  then of_bool ((MIN_SURVIVAL <? n) && (n <? MAX_SURVIVAL))
  else of_bool (n =? SPAWN).

(** [cell_update(w, c)]: the cell [*c] after the call, and the value
    returned.  The neighbours are read from [w]. *)
Definition cell_update (w : world) (c : cell) : cell * Z :=
  let a := next_alive (c_alive c) (alive_neighbours w c) in
  ({| c_alive := a; c_x := c_x c; c_y := c_y c |}, a).

(** ** Advancing a generation *)

(** The call [cell_update(w, &w->cells[y][x])]: the cell updated is a cell of
    the world that is read. *)
Definition update_in_place (w : world) (y x : Z) : world :=
  store_cell w y x (fst (cell_update w (cell_at w y x))).

(** The update loops of [world_advance]. *)
Definition update_all (w : world) : world :=
  for_each_cell (w_height w) (w_width w) update_in_place w.

(** [world_advance]: the world after the call, and the value returned. *)
Definition world_advance (w : world) : world * Z :=
  let prev := world_copy w in
  let w1 := update_all w in
  let is_same_as_prev := of_bool (negb (truthy (world_compare w1 prev))) in
  let w2 :=
    {| w_cells := w_cells w1;
       w_width := w_width w1;
       w_height := w_height w1;
       w_iteration :=
         int_of (w_iteration w1 + of_bool (negb (truthy is_same_as_prev))) |} in
  (w2, of_bool (negb (truthy is_same_as_prev || truthy (world_is_empty w2)))).

(** ** Randomising *)

Section Randomize.

(** The C library's generator: its state, [srand] and [rand]. *)
Variable rng : Type.
Variable srand : Z → rng.
Variable rand : rng → Z * rng.

(** [world_randomize]: reseeds from the clock ([now] is [time(NULL)], which
    [srand] receives as an [unsigned int]), then draws one number per
    cell.  [%] is C's remainder, [Z.rem]. *)
Definition world_randomize (now : Z) (w : world) : world * rng :=
  for_each_cell (w_height w) (w_width w)
    (λ '(w, g) y x,
       let '(r, g) := rand g in (set_alive w y x (Z.rem r 2), g))
    (w, srand (now mod 2 ^ 32)).

End Randomize.

(** ** Drawing *)

Local Open Scope string_scope.

Definition ESC : ascii := "027"%char.
Definition NL : ascii := "010"%char.
Definition VT : ascii := "011"%char.

(** [RESET_CURSOR()] prints ["\033[H"]. *)
Definition RESET_CURSOR : string := String ESC "[H".

(** [%d] and [%ld] of printf. *)
Definition decimal (z : Z) : string := NilZero.string_of_int (Z.to_int z).
Definition printf_d (z : Z) : string := decimal (int_of z).
Definition printf_ld (z : Z) : string := decimal (long_of z).

(** ['o'] for a cell whose flag is non-zero, a space otherwise. *)
Definition cell_char (c : cell) : ascii :=
  if truthy (c_alive c) then "o"%char else " "%char.

(** [world_draw]: [stdout] is the text written so far, and the result is
    the text after the call.  The world is only read. *)
Definition world_draw (w : world) (stdout : string) : string :=
  let stdout := stdout ++ RESET_CURSOR in
  let stdout :=
    foldl (λ stdout y,
      foldl (λ stdout x, stdout ++ String (cell_char (cell_at w y x)) EmptyString)
        stdout (seqZ 0 (w_width w))
      ++ String NL EmptyString)
      stdout (seqZ 0 (w_height w)) in
  stdout ++ String VT "width: " ++ printf_ld (w_width w)
         ++ ", height: " ++ printf_ld (w_height w)
         ++ ", iteration: " ++ printf_d (w_iteration w) ++ String NL EmptyString.

(** [world_mainloop]: draw, sleep, advance, while [world_advance] returns
    non-zero.  The loop need not end (an oscillator runs for ever), so the
    model takes a bound on the number of frames and gives [None] when the
    bound is reached first. *)
Fixpoint world_mainloop (frames : nat) (w : world) (stdout : string)
    : option (world * string) :=
  match frames with
  | O => None
  | S frames =>
      let stdout := world_draw w stdout in
      let '(w, running) := world_advance w in
      if truthy running then world_mainloop frames w stdout
      else Some (w, stdout)
  end.

Local Close Scope string_scope.

(** ** The program *)

Local Open Scope string_scope.

(** [CLEAR_TERM()] prints ["\033[2J"]. *)
Definition CLEAR_TERM : string := String ESC "[2J".

Definition EXIT_SUCCESS : Z := 0.
Definition EXIT_FAILURE : Z := 1.

Section Main.

(** The C library: [atoi], and the generator as in [world_randomize]. *)
Variable atoi : string → Z.
Variable rng : Type.
Variable srand : Z → rng.
Variable rand : rng → Z * rng.

(** [main]: [argv] holds the [argc] arguments, the program's name first;
    [now] is what [time(NULL)] returns and [frames] bounds the main loop as
    in [world_mainloop].  The result is the exit status and the text
    written.  [atoi]'s [int] is stored in a [size_t] and passed to
    [world_init] as an [int] again.  [world_free] has nothing to do in
    this model. *)
Definition main (now : Z) (frames : nat) (argv : list string)
    (stdout : string) : option (Z * string) :=
  let argc := Z.of_nat (length argv) in
  let EXPECTED_ARGC := 3 in
  if negb (argc =? EXPECTED_ARGC)%Z
  then Some (EXIT_FAILURE,
             stdout ++ "Usage: game-of-life <width> <height>"
                    ++ String NL EmptyString)
  else
    let stdout := stdout ++ CLEAR_TERM in
    let width := size_t_of (atoi (nth 1 argv EmptyString)) in
    let height := size_t_of (atoi (nth 2 argv EmptyString)) in
    let w := world_init (int_of width) (int_of height) in
    let w := (world_randomize rng srand rand now w).1 in
    match world_mainloop frames w stdout with
    | Some (w, stdout) => Some (EXIT_SUCCESS, stdout)
    | None => None
    end.

End Main.

Local Close Scope string_scope.

(** * The vocabulary of the properties *)

(** ** Well-formed worlds *)

(** The position is inside the grid. *)
Definition in_grid (w : world) (y x : Z) : Prop :=
  0 <= y < w_height w ∧ 0 <= x < w_width w.

(** The dimensions are those of a world made by [world_init] from
    non-negative [int]s. *)
Definition dims_ok (w : world) : Prop :=
  0 <= w_width w < 2 ^ 31 ∧ 0 <= w_height w < 2 ^ 31.

(** The arrays have the sizes the dimensions announce. *)
Definition shape_ok (w : world) : Prop :=
  length (w_cells w) = Z.to_nat (w_height w)
  ∧ ∀ row, row ∈ w_cells w → length row = Z.to_nat (w_width w).

(** Every cell stores its own position. *)
Definition coords_ok (w : world) : Prop :=
  ∀ y x, in_grid w y x →
    c_x (cell_at w y x) = x ∧ c_y (cell_at w y x) = y.

(** Every alive flag is 0 or 1. *)
Definition flags_ok (w : world) : Prop :=
  ∀ y x, in_grid w y x →
    c_alive (cell_at w y x) = 0 ∨ c_alive (cell_at w y x) = 1.

Record world_wf (w : world) : Prop := {
  wf_dims : dims_ok w;
  wf_shape : shape_ok w;
  wf_coords : coords_ok w;
  wf_flags : flags_ok w
}.

(** The iteration counter can be incremented without overflow. *)
Definition iteration_ok (w : world) : Prop :=
  0 <= w_iteration w < 2 ^ 31 - 1.

(** ** The loops over the cells *)

(** The positions in the order the loops visit them. *)
Definition positions (height width : Z) : list (Z * Z) :=
  y ← seqZ 0 height; x ← seqZ 0 width; [(y, x)].

(** ** The cell rule *)

(** The eight positions around [(y, x)]. *)
Definition neighbours (y x : Z) : list (Z * Z) :=
  (λ d, (y + d.1, x + d.2))
    <$> [(-1, -1); (-1, 0); (-1, 1); (0, -1); (0, 1); (1, -1); (1, 0); (1, 1)].

Definition in_gridb (w : world) (y x : Z) : bool :=
  (0 <=? y) && (y <? w_height w) && (0 <=? x) && (x <? w_width w).

(** The position is inside the grid and the cell there is alive. *)
Definition live (w : world) (y x : Z) : bool :=
  in_gridb w y x && truthy (c_alive (cell_at w y x)).

(** The number of live cells among the neighbours of [(y, x)] that lie
    inside the grid. *)
Definition live_neighbours (w : world) (y x : Z) : Z :=
  Z.of_nat (length (List.filter (λ p, live w p.1 p.2) (neighbours y x))).

(** What one neighbour adds to the count. *)
Definition contribution (w : world) (c : cell) (d : Z * Z) : Z :=
  if (d.2 =? 0) && (d.1 =? 0) then 0
  else of_bool (live w (c_y c + d.1) (c_x c + d.2)).

(** ** A decision procedure for well-formedness *)

Definition world_wfb (w : world) : bool :=
  (0 <=? w_width w) && (w_width w <? 2 ^ 31)
  && (0 <=? w_height w) && (w_height w <? 2 ^ 31)
  && (length (w_cells w) =? Z.to_nat (w_height w))%nat
  && forallb (λ row, (length row =? Z.to_nat (w_width w))%nat) (w_cells w)
  && negb (some_cell (w_height w) (w_width w) (λ y x,
       let c := cell_at w y x in
       negb ((c_x c =? x) && (c_y c =? y)
             && ((c_alive c =? 0) || (c_alive c =? 1))))).

(** ** Example worlds *)

(** The world [w] with the cells at [ps] (pairs of a row and a column) made
    alive. *)
Definition with_live (w : world) (ps : list (Z * Z)) : world :=
  foldl (λ w p, set_alive w p.1 p.2 1) w ps.

(** The alive flags of a world, row by row. *)
Definition pattern (w : world) : list (list Z) :=
  (λ y, (λ x, c_alive (cell_at w y x)) <$> seqZ 0 (w_width w))
    <$> seqZ 0 (w_height w).

(** A horizontal blinker in the middle of a 5×5 world. *)
Definition blinker_world : world :=
  with_live (world_init 5 5) [(2, 1); (2, 2); (2, 3)].

(** A 2×2 block in the middle of a 4×4 world. *)
Definition block_world : world :=
  with_live (world_init 4 4) [(1, 1); (1, 2); (2, 1); (2, 2)].

(** The same world with another iteration counter. *)
Definition with_iteration (w : world) (g : Z) : world :=
  {| w_cells := w_cells w; w_width := w_width w; w_height := w_height w;
     w_iteration := g |}.

(** ** A 2×2 block *)

(** [k] is one of the two indices [b], [b + 1]. *)
Definition within (b k : Z) : bool := (b <=? k) && (k <=? b + 1).

(** The position is in the block whose top-left corner is at row [top],
    column [left]. *)
Definition block_at (top left y x : Z) : bool := within top y && within left x.

(** The live cells of [w] are exactly a 2×2 block, which lies in the grid. *)
Definition is_block (w : world) (top left : Z) : Prop :=
  0 <= top ∧ top + 1 < w_height w ∧ 0 <= left ∧ left + 1 < w_width w
  ∧ ∀ y x, in_grid w y x →
      c_alive (cell_at w y x) = of_bool (block_at top left y x).

(** ** A blinker *)

(** The generation that follows [w] when, as the specification has it,
    the rule is evaluated for every cell against the copy taken before the
    update: the alive flags, row by row. *)
Definition next_generation (w : world) : list (list Z) :=
  let prev := world_copy w in
  (λ y, (λ x, (cell_update prev (cell_at w y x)).2) <$> seqZ 0 (w_width w))
    <$> seqZ 0 (w_height w).

(** A vertical blinker in the middle of a 5×5 world. *)
Definition vertical_blinker_world : world :=
  with_live (world_init 5 5) [(1, 2); (2, 2); (3, 2)].

(** ** Drawing *)

Local Open Scope string_scope.

(** Row [y] of the picture: one character per cell. *)
Definition row_string (w : world) (y : Z) : string :=
  string_of_list_ascii
    ((λ x, cell_char (cell_at w y x)) <$> seqZ 0 (w_width w)).

(** The rows of the picture, top to bottom. *)
Definition row_strings (w : world) : list string :=
  row_string w <$> seqZ 0 (w_height w).

(** The rows as text: a newline ends each row. *)
Definition lines (rows : list string) : string :=
  foldr (λ row text, row ++ String NL text) EmptyString rows.

(** [width: <W>, height: <H>, iteration: <G>] *)
Definition status_line (w : world) : string :=
  "width: " ++ decimal (w_width w) ++ ", height: " ++ decimal (w_height w)
  ++ ", iteration: " ++ decimal (w_iteration w).

(** The frame as the specification words it: the rows, a blank separator
    line, the status line. *)
Definition frame_as_specified (w : world) : string :=
  lines (row_strings w) ++ String NL EmptyString ++ status_line w ++ String NL EmptyString.

(** The frame as [world_draw] writes it: a vertical tab stands where the
    blank line would. *)
Definition frame_as_drawn (w : world) : string :=
  lines (row_strings w) ++ String VT EmptyString ++ status_line w ++ String NL EmptyString.

Local Close Scope string_scope.

(** ** Sparse worlds *)

(** Every cell of the grid is dead. *)
Definition all_dead (w : world) : Prop :=
  ∀ y x, in_grid w y x → c_alive (cell_at w y x) = 0.

(** Every cell of the grid is dead, but for the one at row [y0], column
    [x0], which may be alive. *)
Definition dead_but_at (w : world) (y0 x0 : Z) : Prop :=
  ∀ y x, in_grid w y x → (y, x) ≠ (y0, x0) → c_alive (cell_at w y x) = 0.

(** ** The order of the sweep *)

(** Position [q] comes before position [p] in the row-major order of the
    update loops. *)
Definition precedes (q p : Z * Z) : bool :=
  (q.1 <? p.1) || ((q.1 =? p.1) && (q.2 <? p.2)).

(** What the update of the cell at (y, x) sees at position [q] when the
    sweep turns [w] into [w']: the new state of a cell the sweep has passed,
    the old state of the others. *)
Definition seen_live (w w' : world) (y x : Z) (q : Z * Z) : bool :=
  if precedes q (y, x) then live w' q.1 q.2 else live w q.1 q.2.

(** The number of neighbours of (y, x) that its update sees alive. *)
Definition sweep_count (w w' : world) (y x : Z) : Z :=
  Z.of_nat (length (List.filter (seen_live w w' y x) (neighbours y x))).

(** ** The generator's draws *)

Section Draws.

Variable rng : Type.
Variable rand : rng → Z * rng.

(** The results of the next [n] calls of [rand()]. *)
Fixpoint draws (g : rng) (n : nat) : list Z :=
  match n with
  | O => []
  | S n => (rand g).1 :: draws (rand g).2 n
  end.

(** The state of the generator after [n] calls of [rand()]. *)
Fixpoint after_draws (g : rng) (n : nat) : rng :=
  match n with
  | O => g
  | S n => after_draws (rand g).2 n
  end.

(** One round of the loops of [world_randomize], at position [p]. *)
Definition randomize_step (s : world * rng) (p : Z * Z) : world * rng :=
  (set_alive s.1 p.1 p.2 (Z.rem (rand s.2).1 2), (rand s.2).2).

End Draws.

(** The alive flags of the cells, in the order the loops visit them. *)
Definition flags_in_order (w : world) : list Z :=
  (λ p, c_alive (cell_at w p.1 p.2)) <$> positions (w_height w) (w_width w).

(** A linear congruential generator, to run [world_randomize] on. *)
Definition lcg_rand (g : Z) : Z * Z :=
  let g' := (g * 1103515245 + 12345) mod 2 ^ 31 in (g', g').

(** * Properties *)

(** ** Integer conversions *)

Lemma size_t_of_id z : is_size_t z → size_t_of z = z.
Proof. unfold is_size_t, size_t_of. intros. apply Z.mod_small. lia. Qed.

Lemma int_of_id z : is_int z → int_of z = z.
Proof.
  unfold is_int, int_of. intros.
  rewrite Z.mod_small; lia.
Qed.

Lemma long_of_id z : - 2 ^ 63 <= z < 2 ^ 63 → long_of z = z.
Proof. unfold long_of. intros. rewrite Z.mod_small; lia. Qed.

(** A negative signed value becomes an unsigned one of at least 2^63 (at
    least 2^64 - 2^31 for an [int]). *)
Lemma size_t_of_signed z :
  - 2 ^ 63 <= z < 2 ^ 63 →
  size_t_of z = if z <? 0 then z + 2 ^ 64 else z.
Proof.
  unfold size_t_of. intros Hz.
  destruct (Z.ltb_spec z 0).
  - symmetry. apply (Z.mod_unique _ _ (-1)); lia.
  - apply Z.mod_small. lia.
Qed.

(** [c->x + x_offset], computed in [size_t] and stored in an [int], is the
    mathematical sum for a coordinate that an [int] width admits. *)
Lemma neighbour_coordinate k d :
  0 <= k < 2 ^ 31 - 1 → -1 <= d <= 1 →
  int_of (size_t_of (k + size_t_of d)) = k + d.
Proof.
  intros Hk Hd.
  rewrite (size_t_of_signed d) by lia.
  assert (Hs : size_t_of (k + (if d <? 0 then d + 2 ^ 64 else d))
               = if k + d <? 0 then k + d + 2 ^ 64 else k + d).
  { unfold size_t_of.
    destruct (Z.ltb_spec d 0), (Z.ltb_spec (k + d) 0); try lia.
    - symmetry; apply (Z.mod_unique _ _ 0); lia.
    - symmetry; apply (Z.mod_unique _ _ 1); lia.
    - symmetry; apply (Z.mod_unique _ _ 0); lia. }
  rewrite Hs. unfold int_of.
  destruct (Z.ltb_spec (k + d) 0).
  - assert (k + d = -1) as -> by lia. reflexivity.
  - rewrite Z.mod_small; lia.
Qed.

Lemma truthy_of_bool b : truthy (of_bool b) = b.
Proof. by destruct b. Qed.

Lemma of_bool_1 b : of_bool b = 1 ↔ b = true.
Proof. destruct b; cbn; split; (done || lia). Qed.

Lemma of_bool_0 b : of_bool b = 0 ↔ b = false.
Proof. destruct b; cbn; split; (done || lia). Qed.

Lemma of_bool_range b : of_bool b = 0 ∨ of_bool b = 1.
Proof. destruct b; auto. Qed.

(** ** Reading and writing cells *)

Lemma cell_at_lookup w y x :
  shape_ok w → in_grid w y x →
  ∃ row, w_cells w !! Z.to_nat y = Some row
         ∧ row !! Z.to_nat x = Some (cell_at w y x).
Proof.
  intros [Hlen Hrows] [Hy Hx].
  destruct (lookup_lt_is_Some_2 (w_cells w) (Z.to_nat y)) as [row Hrow];
    [lia|].
  assert (Hin : row ∈ w_cells w) by (eapply list_elem_of_lookup_2; eauto).
  destruct (lookup_lt_is_Some_2 row (Z.to_nat x)) as [c Hc];
    [rewrite (Hrows _ Hin); lia|].
  exists row. split; [done|].
  unfold cell_at. rewrite Hrow. cbn. by rewrite Hc.
Qed.

Lemma alter_const_same {A : Type} (l : list A) (i : nat) (d : A) :
  alter (λ _, default d (l !! i)) i l = l.
Proof.
  apply list_eq. intros j. destruct (decide (i = j)) as [->|Hne].
  - rewrite list_lookup_alter_eq. by destruct (l !! j).
  - by rewrite list_lookup_alter_ne.
Qed.

(** Writing back what was read changes nothing. *)
Lemma store_cell_same w y x : store_cell w y x (cell_at w y x) = w.
Proof.
  destruct w as [cells wd ht it]. unfold store_cell, cell_at. cbn. f_equal.
  apply list_eq. intros j. destruct (decide (Z.to_nat y = j)) as [<-|Hne].
  - rewrite list_lookup_alter_eq.
    destruct (cells !! Z.to_nat y) as [row|]; [|done]. cbn.
    by rewrite alter_const_same.
  - by rewrite list_lookup_alter_ne.
Qed.

(** A read after a write, for any two positions. *)
Lemma cell_at_store_cell w y x c y' x' :
  cell_at (store_cell w y x c) y' x'
  = if decide (Z.to_nat y' = Z.to_nat y ∧ Z.to_nat x' = Z.to_nat x)
    then default zero_cell
           ((λ _, c) <$> (w_cells w !! Z.to_nat y ≫= λ row, row !! Z.to_nat x))
    else cell_at w y' x'.
Proof.
  unfold cell_at, store_cell. cbn.
  destruct (decide (Z.to_nat y' = Z.to_nat y)) as [->|Hy].
  - rewrite list_lookup_alter_eq.
    destruct (w_cells w !! Z.to_nat y) as [row|]; cbn.
    + destruct (decide (Z.to_nat x' = Z.to_nat x)) as [->|Hx].
      * rewrite decide_True by done. by rewrite list_lookup_alter_eq.
      * rewrite decide_False by tauto. by rewrite list_lookup_alter_ne.
    + by case_decide.
  - rewrite decide_False by tauto. by rewrite list_lookup_alter_ne.
Qed.

Lemma cell_at_store_eq w y x c :
  shape_ok w → in_grid w y x → cell_at (store_cell w y x c) y x = c.
Proof.
  intros Hs Hg. rewrite cell_at_store_cell, decide_True by done.
  destruct (cell_at_lookup w y x Hs Hg) as (row & -> & Hc). cbn.
  by rewrite Hc.
Qed.

Lemma cell_at_store_ne w y x c y' x' :
  0 <= y → 0 <= x → 0 <= y' → 0 <= x' → (y', x') ≠ (y, x) →
  cell_at (store_cell w y x c) y' x' = cell_at w y' x'.
Proof.
  intros ???? Hne. rewrite cell_at_store_cell, decide_False; [done|].
  intros [Hy Hx]. apply Hne. f_equal; lia.
Qed.

Lemma store_cell_shape w y x c : shape_ok w → shape_ok (store_cell w y x c).
Proof.
  intros [Hlen Hrows]. split; cbn.
  - by rewrite length_alter.
  - intros row Hin. apply list_elem_of_lookup in Hin as [j Hj].
    destruct (decide (Z.to_nat y = j)) as [<-|Hne].
    + rewrite list_lookup_alter_eq in Hj.
      destruct (w_cells w !! Z.to_nat y) as [row0|] eqn:E; [|done].
      cbn in Hj. injection Hj as <-. rewrite length_alter.
      apply Hrows. eapply list_elem_of_lookup_2; eauto.
    + rewrite list_lookup_alter_ne in Hj by done.
      apply Hrows. eapply list_elem_of_lookup_2; eauto.
Qed.

(** [w->cells[y][x].alive = a] leaves every stored coordinate as it is, in
    range or not. *)
Lemma set_alive_coords w y x a y' x' :
  c_x (cell_at (set_alive w y x a) y' x') = c_x (cell_at w y' x')
  ∧ c_y (cell_at (set_alive w y x a) y' x') = c_y (cell_at w y' x').
Proof.
  unfold set_alive. rewrite cell_at_store_cell.
  case_decide as Hd; [|done]. destruct Hd as [Hy Hx].
  unfold cell_at at 3 6. rewrite Hy, Hx.
  unfold cell_at.
  by destruct (w_cells w !! Z.to_nat y ≫= λ row, row !! Z.to_nat x).
Qed.

Lemma set_alive_dims w y x a :
  w_width (set_alive w y x a) = w_width w
  ∧ w_height (set_alive w y x a) = w_height w
  ∧ w_iteration (set_alive w y x a) = w_iteration w.
Proof. done. Qed.

Lemma set_alive_shape w y x a : shape_ok w → shape_ok (set_alive w y x a).
Proof. apply store_cell_shape. Qed.

Lemma set_alive_eq w y x a :
  shape_ok w → in_grid w y x → c_alive (cell_at (set_alive w y x a) y x) = a.
Proof. intros. unfold set_alive. by rewrite cell_at_store_eq. Qed.

Lemma set_alive_ne w y x a y' x' :
  0 <= y → 0 <= x → 0 <= y' → 0 <= x' → (y', x') ≠ (y, x) →
  cell_at (set_alive w y x a) y' x' = cell_at w y' x'.
Proof. intros. unfold set_alive. by apply cell_at_store_ne. Qed.

Lemma set_alive_coords_ok w y x a : coords_ok w → coords_ok (set_alive w y x a).
Proof.
  intros Hc y' x' Hg.
  destruct (set_alive_coords w y x a y' x') as [-> ->]. by apply Hc.
Qed.

Lemma set_alive_flags_ok w y x a :
  shape_ok w → in_grid w y x → a = 0 ∨ a = 1 →
  flags_ok w → flags_ok (set_alive w y x a).
Proof.
  intros Hs Hg Ha Hf y' x' Hg'.
  destruct (decide ((y', x') = (y, x))) as [[= -> ->]|Hne].
  - by rewrite set_alive_eq.
  - destruct Hg, Hg'. rewrite set_alive_ne by (done || lia). by apply Hf.
Qed.

Lemma set_alive_wf w y x a :
  in_grid w y x → a = 0 ∨ a = 1 → world_wf w → world_wf (set_alive w y x a).
Proof.
  intros Hg Ha [Hd Hs Hc Hf]. split.
  - done.
  - by apply set_alive_shape.
  - by apply set_alive_coords_ok.
  - by apply set_alive_flags_ok.
Qed.

(** ** The loops over the cells *)

Lemma elem_of_positions height width y x :
  (y, x) ∈ positions height width ↔ 0 <= y < height ∧ 0 <= x < width.
Proof.
  unfold positions. rewrite list_elem_of_bind. split.
  - intros (y' & Hin & Hy). apply list_elem_of_bind in Hin as (x' & Hin & Hx).
    apply list_elem_of_singleton in Hin as [= -> ->].
    apply elem_of_seqZ in Hy, Hx. lia.
  - intros [Hy Hx]. exists y. split; [|apply elem_of_seqZ; lia].
    apply list_elem_of_bind. exists x. split; [|apply elem_of_seqZ; lia].
    by apply list_elem_of_singleton.
Qed.

(** Two nested loops are one loop over the pairs. *)
Lemma foldl_nested {St A B : Type} (f : St → A → B → St)
    (la : list A) (lb : list B) (s : St) :
  foldl (λ s a, foldl (λ s b, f s a b) s lb) s la
  = foldl (λ s p, f s p.1 p.2) s (a ← la; b ← lb; [(a, b)]).
Proof.
  revert s. induction la as [|a la IH]; intros s; [done|].
  cbn. rewrite foldl_app, <- IH. f_equal.
  clear IH. revert s. induction lb as [|b lb IH]; intros s; [done|].
  cbn. by rewrite <- IH.
Qed.

Lemma for_each_cell_positions {St : Type} height width
    (body : St → Z → Z → St) (s : St) :
  for_each_cell height width body s
  = foldl (λ s p, body s p.1 p.2) s (positions height width).
Proof. apply foldl_nested. Qed.

(** An invariant of the bodies is an invariant of the loops. *)
Lemma for_each_cell_inv {St : Type} (P : St → Prop) height width
    (body : St → Z → Z → St) (s : St) :
  P s →
  (∀ s y x, 0 <= y < height → 0 <= x < width → P s → P (body s y x)) →
  P (for_each_cell height width body s).
Proof.
  intros Hs Hbody. rewrite for_each_cell_positions.
  assert (Hps : ∀ p, p ∈ positions height width →
                  0 <= p.1 < height ∧ 0 <= p.2 < width).
  { intros [y x]. apply elem_of_positions. }
  revert s Hs Hps. induction (positions height width) as [|p ps IH];
    intros s Hs Hps; [done|].
  cbn. apply IH.
  - apply Hbody; [apply Hps; left..|done].
  - intros q Hq. apply Hps. by right.
Qed.

(** Bodies that leave the state as it is make the loops leave it. *)
Lemma for_each_cell_fixed {St : Type} height width
    (body : St → Z → Z → St) (s : St) :
  (∀ y x, 0 <= y < height → 0 <= x < width → body s y x = s) →
  for_each_cell height width body s = s.
Proof.
  intros Hbody.
  apply (for_each_cell_inv (λ s', s' = s)); [done|].
  intros s' y x Hy Hx ->. by apply Hbody.
Qed.

(** Loops whose body writes the value [v y x] into slot [(y, x)] of the
    state, leaving the other slots: afterwards every slot holds its value.
    [I] is an invariant the bodies may rely on. *)
Lemma for_each_cell_writes {St V : Type} (get : St → Z → Z → V)
    (v : Z → Z → V) (I : St → Prop) height width
    (body : St → Z → Z → St) (s : St) :
  (∀ s y x, 0 <= y < height → 0 <= x < width → I s → I (body s y x)) →
  (∀ s y x, 0 <= y < height → 0 <= x < width → I s →
     get (body s y x) y x = v y x) →
  (∀ s y x y' x', 0 <= y < height → 0 <= x < width →
     0 <= y' < height → 0 <= x' < width → I s → (y', x') ≠ (y, x) →
     get (body s y x) y' x' = get s y' x') →
  I s →
  ∀ y x, 0 <= y < height → 0 <= x < width →
    get (for_each_cell height width body s) y x = v y x.
Proof.
  intros HI Hw Hfr Hs y x Hy Hx. rewrite for_each_cell_positions.
  assert (Hin : (y, x) ∈ positions height width)
    by by apply elem_of_positions.
  assert (Hps : ∀ p, p ∈ positions height width →
                  0 <= p.1 < height ∧ 0 <= p.2 < width).
  { intros [y' x']. apply elem_of_positions. }
  cut (∀ ps s, I s →
         (∀ p, p ∈ ps → 0 <= p.1 < height ∧ 0 <= p.2 < width) →
         I (foldl (λ s p, body s p.1 p.2) s ps)
         ∧ get (foldl (λ s p, body s p.1 p.2) s ps) y x
           = if decide ((y, x) ∈ ps) then v y x else get s y x).
  { intros Hcut. destruct (Hcut _ s Hs Hps) as [_ ->].
    by rewrite decide_True. }
  clear Hin Hps Hs s.
  induction ps as [|[y' x'] ps IH]; intros s Hs Hps.
  - split; [done|]. rewrite decide_False; [done|]. apply not_elem_of_nil.
  - cbn. destruct (Hps (y', x')) as [Hy' Hx']; [left|]. cbn in Hy', Hx'.
    destruct (IH (body s y' x')) as [HI' Hget];
      [by apply HI|intros q Hq; apply Hps; by right|].
    split; [done|]. rewrite Hget.
    destruct (decide ((y, x) ∈ ps)) as [Hin|Hnin].
    + rewrite decide_True; [done|by right].
    + destruct (decide ((y, x) = (y', x'))) as [[= -> ->]|Hne].
      * rewrite decide_True by left. by apply Hw.
      * rewrite decide_False.
        -- by apply Hfr.
        -- intros Hin. apply elem_of_cons in Hin as [?|?]; done.
Qed.

Lemma some_cell_true height width p :
  some_cell height width p = true
  ↔ ∃ y x, 0 <= y < height ∧ 0 <= x < width ∧ p y x = true.
Proof.
  unfold some_cell. rewrite existsb_exists. split.
  - intros (y & Hy & Hex). apply existsb_exists in Hex as (x & Hx & Hp).
    apply list_elem_of_In, elem_of_seqZ in Hy, Hx. exists y, x.
    split_and!; (done || lia).
  - intros (y & x & Hy & Hx & Hp). exists y. split.
    + apply list_elem_of_In, elem_of_seqZ. lia.
    + apply existsb_exists. exists x. split; [|done].
      apply list_elem_of_In, elem_of_seqZ. lia.
Qed.

Lemma some_cell_false height width p :
  some_cell height width p = false
  ↔ ∀ y x, 0 <= y < height → 0 <= x < width → p y x = false.
Proof.
  rewrite <- not_true_iff_false, some_cell_true. split.
  - intros Hn y x Hy Hx. apply not_true_iff_false. intros Hp.
    apply Hn. by exists y, x.
  - intros Hall (y & x & Hy & Hx & Hp). by rewrite Hall in Hp.
Qed.

(** ** [world_init] *)

Lemma size_t_of_range z : is_size_t (size_t_of z).
Proof. unfold is_size_t, size_t_of. apply Z.mod_pos_bound. lia. Qed.

Lemma cell_at_world_init width height y x :
  in_grid (world_init width height) y x →
  cell_at (world_init width height) y x = {| c_alive := 0; c_x := x; c_y := y |}.
Proof.
  intros [Hy Hx]. cbn in Hy, Hx. unfold cell_at, world_init. cbn.
  rewrite list_lookup_fmap, lookup_seqZ_lt by lia. cbn.
  rewrite list_lookup_fmap, lookup_seqZ_lt by lia. cbn.
  f_equal; lia.
Qed.

Lemma world_init_shape width height : shape_ok (world_init width height).
Proof.
  split; cbn.
  - by rewrite length_fmap, length_seqZ.
  - intros row Hin. apply list_elem_of_fmap in Hin as (y & -> & _).
    by rewrite length_fmap, length_seqZ.
Qed.

Lemma world_init_coords width height : coords_ok (world_init width height).
Proof. intros y x Hg. by rewrite cell_at_world_init. Qed.

Lemma world_init_flags width height : flags_ok (world_init width height).
Proof. intros y x Hg. rewrite cell_at_world_init by done. by left. Qed.

(** What [world_init] makes of non-negative [int]s. *)
Lemma world_init_dims width height :
  0 <= width < 2 ^ 31 → 0 <= height < 2 ^ 31 →
  w_width (world_init width height) = width
  ∧ w_height (world_init width height) = height.
Proof.
  intros Hw Hh. cbn. rewrite !size_t_of_id; [done|unfold is_size_t; lia..].
Qed.

Lemma world_init_wf width height :
  0 <= width < 2 ^ 31 → 0 <= height < 2 ^ 31 →
  world_wf (world_init width height).
Proof.
  intros Hw Hh. split.
  - unfold dims_ok.
    destruct (world_init_dims width height Hw Hh) as [-> ->]. done.
  - apply world_init_shape.
  - apply world_init_coords.
  - apply world_init_flags.
Qed.

(** ** [world_copy], [world_compare] and [world_is_empty] *)

Lemma world_copy_inv w :
  shape_ok (world_copy w) ∧ coords_ok (world_copy w)
  ∧ w_width (world_copy w) = size_t_of (int_of (w_width w))
  ∧ w_height (world_copy w) = size_t_of (int_of (w_height w))
  ∧ w_iteration (world_copy w) = 0.
Proof.
  unfold world_copy.
  apply (for_each_cell_inv (λ s,
    shape_ok s ∧ coords_ok s
    ∧ w_width s = size_t_of (int_of (w_width w))
    ∧ w_height s = size_t_of (int_of (w_height w))
    ∧ w_iteration s = 0)).
  - split_and!; [apply world_init_shape|apply world_init_coords|done..].
  - intros s y x _ _ (Hs & Hc & Hw & Hh & Hi). split_and!; try done.
    + by apply set_alive_shape.
    + by apply set_alive_coords_ok.
Qed.

Lemma world_copy_dims w :
  dims_ok w →
  w_width (world_copy w) = w_width w ∧ w_height (world_copy w) = w_height w.
Proof.
  intros [Hw Hh]. destruct (world_copy_inv w) as (_ & _ & -> & -> & _).
  rewrite !int_of_id by (unfold is_int; lia).
  rewrite !size_t_of_id by (unfold is_size_t; lia). done.
Qed.

Lemma world_copy_alive w y x :
  dims_ok w → in_grid w y x →
  c_alive (cell_at (world_copy w) y x) = c_alive (cell_at w y x).
Proof.
  intros Hd [Hy Hx]. unfold world_copy.
  apply (for_each_cell_writes (λ s y x, c_alive (cell_at s y x))
           (λ y x, c_alive (cell_at w y x))
           (λ s, shape_ok s ∧ w_width s = w_width w ∧ w_height s = w_height w));
    try done.
  - intros s y' x' _ _ (Hs & Hw & Hh). split_and!; try done.
    by apply set_alive_shape.
  - intros s y' x' Hy' Hx' (Hs & Hw & Hh). apply set_alive_eq; [done|].
    unfold in_grid. by rewrite Hw, Hh.
  - intros s y1 x1 y2 x2 ? ? ? ? _ Hne. rewrite set_alive_ne; (done || lia).
  - destruct Hd as [Hw Hh]. split_and!.
    + apply world_init_shape.
    + cbn. rewrite int_of_id by (unfold is_int; lia).
      apply size_t_of_id. unfold is_size_t. lia.
    + cbn. rewrite int_of_id by (unfold is_int; lia).
      apply size_t_of_id. unfold is_size_t. lia.
Qed.

Lemma world_copy_wf w : dims_ok w → flags_ok w → world_wf (world_copy w).
Proof.
  intros Hd Hf. destruct (world_copy_dims w Hd) as [Hw Hh].
  destruct (world_copy_inv w) as (Hs & Hc & _). split; try done.
  - unfold dims_ok. by rewrite Hw, Hh.
  - intros y x Hg. assert (in_grid w y x) by (unfold in_grid in *; by rewrite <- Hw, <- Hh).
    rewrite world_copy_alive by done. by apply Hf.
Qed.

Lemma world_compare_range w1 w2 :
  world_compare w1 w2 = 0 ∨ world_compare w1 w2 = 1.
Proof. unfold world_compare. repeat case_match; auto. Qed.

(** [world_compare] returns 0 exactly for worlds of the same dimensions
    whose cells have the same alive flags. *)
Lemma world_compare_0 w1 w2 :
  world_compare w1 w2 = 0
  ↔ w_width w1 = w_width w2 ∧ w_height w1 = w_height w2
    ∧ ∀ y x, in_grid w1 y x →
        c_alive (cell_at w1 y x) = c_alive (cell_at w2 y x).
Proof.
  unfold world_compare.
  destruct (Z.eqb_spec (w_width w1) (w_width w2)) as [Hw|Hw]; cbn;
    [|split; [done|tauto]].
  destruct (Z.eqb_spec (w_height w1) (w_height w2)) as [Hh|Hh]; cbn;
    [|split; [done|tauto]].
  destruct (some_cell _ _ _) eqn:E.
  - split; [done|]. intros (_ & _ & Hall).
    apply some_cell_true in E as (y & x & Hy & Hx & Hp).
    rewrite (Hall y x) in Hp by done. by rewrite Z.eqb_refl in Hp.
  - split; [|done]. intros _. split_and!; try done.
    intros y x [Hy Hx].
    rewrite some_cell_false in E. specialize (E y x Hy Hx).
    apply negb_false_iff in E. by apply Z.eqb_eq.
Qed.

(** The iteration counters take no part in the comparison. *)
Lemma world_compare_with_iteration w1 w2 g1 g2 :
  world_compare (with_iteration w1 g1) (with_iteration w2 g2)
  = world_compare w1 w2.
Proof. reflexivity. Qed.

Lemma world_is_empty_range w : world_is_empty w = 0 ∨ world_is_empty w = 1.
Proof. unfold world_is_empty. case_match; auto. Qed.

(** [world_is_empty] returns 0 exactly when some cell is alive. *)
Lemma world_is_empty_0 w :
  world_is_empty w = 0 ↔ ∃ y x, in_grid w y x ∧ c_alive (cell_at w y x) ≠ 0.
Proof.
  unfold world_is_empty. destruct (some_cell _ _ _) eqn:E.
  - split; [|done]. intros _.
    apply some_cell_true in E as (y & x & Hy & Hx & Hp).
    exists y, x. split; [done|].
    unfold truthy in Hp. apply negb_true_iff in Hp. by apply Z.eqb_neq.
  - split; [done|]. intros (y & x & [Hy Hx] & Hne).
    rewrite some_cell_false in E. specialize (E y x Hy Hx).
    unfold truthy in E. apply negb_false_iff, Z.eqb_eq in E. done.
Qed.

(** ** [world_is_in_bounds] *)

Lemma world_is_in_bounds_range w x y :
  world_is_in_bounds w x y = 0 ∨ world_is_in_bounds w x y = 1.
Proof. unfold world_is_in_bounds. apply of_bool_range. Qed.

(** On [size_t] arguments the function tests the two upper bounds. *)
Lemma world_is_in_bounds_1 w x y :
  world_is_in_bounds w x y = 1
  ↔ (0 <= x < w_width w) ∧ (0 <= y < w_height w).
Proof.
  unfold world_is_in_bounds. rewrite of_bool_1, !truthy_of_bool.
  rewrite !andb_true_iff, !Z.leb_le, !Z.ltb_lt. tauto.
Qed.

(** Called with signed values ([int]s in [cell_update]), which are converted
    to [size_t]: a negative one becomes at least 2^63, above every width and
    height that [world_init] makes of a non-negative [int]. *)
Lemma world_is_in_bounds_signed w x y :
  dims_ok w → - 2 ^ 63 <= x < 2 ^ 63 → - 2 ^ 63 <= y < 2 ^ 63 →
  world_is_in_bounds w (size_t_of x) (size_t_of y) = 1
  ↔ (0 <= x < w_width w) ∧ (0 <= y < w_height w).
Proof.
  intros [Hw Hh] Hx Hy. rewrite world_is_in_bounds_1.
  rewrite (size_t_of_signed x Hx), (size_t_of_signed y Hy).
  destruct (Z.ltb_spec x 0), (Z.ltb_spec y 0); lia.
Qed.

(** ** The cell rule *)

Lemma in_gridb_true w y x : in_gridb w y x = true ↔ in_grid w y x.
Proof.
  unfold in_gridb, in_grid.
  rewrite !andb_true_iff, !Z.leb_le, !Z.ltb_lt. tauto.
Qed.

Lemma count_filter_sum {A : Type} (f : A → bool) (l : list A) :
  Z.of_nat (length (List.filter f l)) = foldr (λ a n, of_bool (f a) + n) 0 l.
Proof.
  induction l as [|a l IH]; [done|].
  cbn. destruct (f a); cbn [length of_bool]; lia.
Qed.

Lemma contribution_range w c d : 0 <= contribution w c d <= 1.
Proof.
  unfold contribution. destruct (_ && _); [lia|].
  destruct (of_bool_range (live w (c_y c + d.1) (c_x c + d.2))); lia.
Qed.

(** One round of the counting loops, on a well-formed world, for a cell
    whose stored coordinates are in the grid: no conversion loses
    anything, and the count grows by the neighbour's [contribution]. *)
Lemma count_neighbour_ok w c n y_offset x_offset :
  world_wf w → in_grid w (c_y c) (c_x c) →
  -1 <= y_offset <= 1 → -1 <= x_offset <= 1 → 0 <= n < 2 ^ 31 - 1 →
  count_neighbour w c n y_offset x_offset
  = n + contribution w c (y_offset, x_offset).
Proof.
  intros [[Hw Hh] Hs Hc Hf] [Hy Hx] Hdy Hdx Hn.
  unfold count_neighbour, contribution. cbn [fst snd].
  rewrite !neighbour_coordinate by lia.
  destruct ((x_offset =? 0) && (y_offset =? 0)); cbn [negb andb]; [lia|].
  unfold live.
  destruct (in_gridb w (c_y c + y_offset) (c_x c + x_offset)) eqn:E.
  - apply in_gridb_true in E.
    assert (Hb : world_is_in_bounds w (size_t_of (c_x c + x_offset))
                   (size_t_of (c_y c + y_offset)) = 1).
    { apply world_is_in_bounds_signed; unfold dims_ok, in_grid in *; lia. }
    rewrite Hb. cbn [truthy Z.eqb negb andb].
    destruct (Hf _ _ E) as [-> | ->]; cbn [truthy Z.eqb negb of_bool];
      apply int_of_id; unfold is_int; lia.
  - assert (Hb : world_is_in_bounds w (size_t_of (c_x c + x_offset))
                   (size_t_of (c_y c + y_offset)) = 0).
    { destruct (world_is_in_bounds_range w (size_t_of (c_x c + x_offset))
                  (size_t_of (c_y c + y_offset))) as [|Hb]; [done|].
      apply world_is_in_bounds_signed in Hb;
        [|unfold dims_ok in *; lia..].
      apply not_true_iff_false in E. destruct E.
      apply in_gridb_true. unfold in_grid. tauto. }
    rewrite Hb. cbn. lia.
Qed.

Lemma count_fold w c (ds : list (Z * Z)) n :
  world_wf w → in_grid w (c_y c) (c_x c) →
  (∀ d, d ∈ ds → -1 <= d.1 <= 1 ∧ -1 <= d.2 <= 1) →
  0 <= n → n + Z.of_nat (length ds) < 2 ^ 31 →
  foldl (λ n d, count_neighbour w c n d.1 d.2) n ds
  = n + foldr (λ d m, contribution w c d + m) 0 ds.
Proof.
  intros Hwf Hg. revert n. induction ds as [|[dy dx] ds IH];
    intros n Hds Hn Hlen; cbn [foldl foldr]; [lia|].
  cbn [length] in Hlen.
  destruct (Hds (dy, dx)) as [Hdy Hdx]; [left|]. cbn [fst snd] in *.
  rewrite count_neighbour_ok by (done || lia).
  pose proof (contribution_range w c (dy, dx)).
  rewrite IH; [lia| |lia|lia].
  intros d Hd. apply Hds. by right.
Qed.

(** The count that [cell_update] makes for a cell is the number of live
    in-grid neighbours of the position the cell stores. *)
Lemma alive_neighbours_ok w c :
  world_wf w → in_grid w (c_y c) (c_x c) →
  alive_neighbours w c = live_neighbours w (c_y c) (c_x c).
Proof.
  intros Hwf Hg. unfold alive_neighbours. rewrite foldl_nested.
  rewrite count_fold; try done.
  - unfold live_neighbours. rewrite count_filter_sum.
    unfold offsets, neighbours, contribution. cbn. lia.
  - unfold offsets. cbn. intros d Hd.
    repeat (apply elem_of_cons in Hd as [->|Hd]; [cbn; lia|]).
    by apply elem_of_nil in Hd.
Qed.

Lemma live_neighbours_range w y x : 0 <= live_neighbours w y x <= 8.
Proof.
  unfold live_neighbours.
  pose proof (filter_length_le (λ p, live w p.1 p.2) (neighbours y x)) as H.
  assert (Hlen : length (neighbours y x) = 8%nat) by reflexivity.
  lia.
Qed.

Lemma world_wfb_ok w : world_wfb w = true → world_wf w.
Proof.
  unfold world_wfb. rewrite !andb_true_iff, !Z.leb_le, !Z.ltb_lt.
  rewrite Nat.eqb_eq, forallb_forall, negb_true_iff, some_cell_false.
  intros ((((((Hw0 & Hw1) & Hh0) & Hh1) & Hlen) & Hrows) & Hcells).
  assert (Hcell : ∀ y x, in_grid w y x →
    (c_x (cell_at w y x) = x ∧ c_y (cell_at w y x) = y)
    ∧ (c_alive (cell_at w y x) = 0 ∨ c_alive (cell_at w y x) = 1)).
  { intros y x [Hy Hx]. specialize (Hcells y x Hy Hx). cbn in Hcells.
    apply negb_false_iff in Hcells.
    rewrite !andb_true_iff, orb_true_iff, !Z.eqb_eq in Hcells. tauto. }
  split.
  - unfold dims_ok. lia.
  - split; [done|]. intros row Hin. apply Nat.eqb_eq, Hrows.
    by apply list_elem_of_In.
  - intros y x Hg. by apply Hcell.
  - intros y x Hg. by apply Hcell.
Qed.

(** ** The update loops *)

Lemma update_in_place_set_alive w y x :
  update_in_place w y x
  = set_alive w y x (snd (cell_update w (cell_at w y x))).
Proof. reflexivity. Qed.

(** The loops of [world_advance] change no dimension, no counter and no
    stored coordinate. *)
Lemma update_all_frame w :
  w_width (update_all w) = w_width w
  ∧ w_height (update_all w) = w_height w
  ∧ w_iteration (update_all w) = w_iteration w
  ∧ ∀ y x, c_x (cell_at (update_all w) y x) = c_x (cell_at w y x)
           ∧ c_y (cell_at (update_all w) y x) = c_y (cell_at w y x).
Proof.
  unfold update_all.
  apply (for_each_cell_inv (λ s,
    w_width s = w_width w ∧ w_height s = w_height w
    ∧ w_iteration s = w_iteration w
    ∧ ∀ y x, c_x (cell_at s y x) = c_x (cell_at w y x)
             ∧ c_y (cell_at s y x) = c_y (cell_at w y x))); [done|].
  intros s y x _ _ (Hw & Hh & Hi & Hc). split_and!; try done.
  intros y' x'. rewrite update_in_place_set_alive.
  destruct (set_alive_coords s y x
              (snd (cell_update s (cell_at s y x))) y' x') as [-> ->].
  apply Hc.
Qed.

Lemma cell_update_snd w c :
  (cell_update w c).2 = next_alive (c_alive c) (alive_neighbours w c).
Proof. reflexivity. Qed.

Lemma next_alive_range a n : next_alive a n = 0 ∨ next_alive a n = 1.
Proof. unfold next_alive. destruct (truthy a); apply of_bool_range. Qed.

Lemma update_all_wf w : world_wf w → world_wf (update_all w).
Proof.
  intros Hwf.
  enough (world_wf (update_all w) ∧ w_width (update_all w) = w_width w
          ∧ w_height (update_all w) = w_height w) as [? _]; [done|].
  unfold update_all.
  apply (for_each_cell_inv (λ s,
    world_wf s ∧ w_width s = w_width w ∧ w_height s = w_height w));
    [done|].
  intros s y x Hy Hx (Hs & Hw & Hh). split_and!; try done.
  rewrite update_in_place_set_alive.
  apply set_alive_wf; [|apply next_alive_range|done].
  unfold in_grid. by rewrite Hw, Hh.
Qed.

(** The parts of [world_advance]'s result. *)
Lemma world_advance_unfold w :
  let same := negb (truthy (world_compare (update_all w) (world_copy w))) in
  w_cells (world_advance w).1 = w_cells (update_all w)
  ∧ w_width (world_advance w).1 = w_width w
  ∧ w_height (world_advance w).1 = w_height w
  ∧ w_iteration (world_advance w).1
    = int_of (w_iteration w + of_bool (negb same))
  ∧ (world_advance w).2
    = of_bool (negb (same || truthy (world_is_empty (update_all w))))
  ∧ ∀ y x, cell_at (world_advance w).1 y x = cell_at (update_all w) y x.
Proof.
  destruct (update_all_frame w) as (Hw & Hh & Hi & _).
  cbn. rewrite !truthy_of_bool. split_and!; try done.
  by rewrite Hi.
Qed.

Lemma blinker_world_wf : world_wf blinker_world.
Proof. apply world_wfb_ok. vm_compute. reflexivity. Qed.

Lemma block_world_wf : world_wf block_world.
Proof. apply world_wfb_ok. vm_compute. reflexivity. Qed.

(** ** More on the cell rule and on [world_advance] *)

(** The count depends on the cell it is made for through the coordinates
    the cell stores, and through nothing else. *)
Lemma alive_neighbours_coords w c c' :
  c_x c = c_x c' → c_y c = c_y c' →
  alive_neighbours w c = alive_neighbours w c'.
Proof.
  intros Hx Hy. unfold alive_neighbours, count_neighbour.
  by rewrite Hx, Hy.
Qed.

Section Randomize_coords.

Variable rng : Type.
Variable srand : Z → rng.
Variable rand : rng → Z * rng.

Lemma world_randomize_coords now w :
  coords_ok w → coords_ok (world_randomize rng srand rand now w).1.
Proof.
  intros Hc. unfold world_randomize.
  apply (for_each_cell_inv (λ s : world * rng, coords_ok s.1)); [done|].
  intros [s g] y x _ _ Hs. destruct (rand g) as [r g'].
  by apply set_alive_coords_ok.
Qed.

End Randomize_coords.

Lemma world_advance_coords w : coords_ok w → coords_ok (world_advance w).1.
Proof.
  intros Hc y x [Hy Hx].
  destruct (world_advance_unfold w) as (_ & Hw & Hh & _ & _ & Hcell).
  destruct (update_all_frame w) as (_ & _ & _ & Hxy).
  rewrite Hw, Hh in *. rewrite Hcell. destruct (Hxy y x) as [-> ->].
  by apply Hc.
Qed.

(** The neighbours of a position are the positions one step away at most
    in each direction, the position itself left out. *)
Lemma elem_of_neighbours y x p :
  p ∈ neighbours y x
  ↔ p ≠ (y, x) ∧ y - 1 <= p.1 <= y + 1 ∧ x - 1 <= p.2 <= x + 1.
Proof.
  destruct p as [py px]. unfold neighbours. cbn. split.
  - intros Hin.
    repeat (apply elem_of_cons in Hin as [ [= -> ->] | Hin];
            [split; [intros [= ? ?]; lia|lia]|]).
    by apply elem_of_nil in Hin.
  - intros (Hne & Hy & Hx).
    assert (py = y + -1 ∨ py = y + 0 ∨ py = y + 1) as [-> | [-> | ->] ] by lia;
    assert (px = x + -1 ∨ px = x + 0 ∨ px = x + 1) as [-> | [-> | ->] ] by lia;
    try (repeat first [apply list_elem_of_here | apply list_elem_of_further]).
    destruct Hne. f_equal; lia.
Qed.

(** Worlds of the same dimensions compare unequal exactly when some cell
    has another alive flag. *)
Lemma world_compare_differs w1 w2 :
  w_width w1 = w_width w2 → w_height w1 = w_height w2 →
  world_compare w1 w2 ≠ 0
  ↔ ∃ y x, in_grid w1 y x
           ∧ c_alive (cell_at w1 y x) ≠ c_alive (cell_at w2 y x).
Proof.
  intros Hw Hh. split.
  - intros Hne. unfold world_compare in Hne.
    rewrite Hw, Hh, !Z.eqb_refl in Hne. cbn in Hne.
    destruct (some_cell _ _ _) eqn:E; [|done].
    apply some_cell_true in E as (y & x & Hy & Hx & Hp).
    exists y, x. unfold in_grid. rewrite Hw, Hh. split; [done|].
    apply negb_true_iff in Hp. by apply Z.eqb_neq.
  - intros (y & x & Hg & Hne) H0.
    apply world_compare_0 in H0 as (_ & _ & Hall). by apply Hne, Hall.
Qed.

(** The comparison that [world_advance] makes, in terms of the world
    before the call: the copy has its alive flags. *)
Lemma advance_compare w :
  dims_ok w →
  world_compare (update_all w) (world_copy w) ≠ 0
  ↔ ∃ y x, in_grid w y x
           ∧ c_alive (cell_at (update_all w) y x) ≠ c_alive (cell_at w y x).
Proof.
  intros Hd. destruct (world_copy_dims w Hd) as [Hcw Hch].
  destruct (update_all_frame w) as (Huw & Huh & _).
  rewrite world_compare_differs by congruence.
  unfold in_grid. rewrite Huw, Huh.
  split; intros (y & x & Hg & Hne); exists y, x; (split; [done|]).
  - by rewrite <- (world_copy_alive w y x).
  - by rewrite (world_copy_alive w y x).
Qed.

Lemma within_cases b k :
  (within b (k + -1) = false ∧ within b k = false ∧ within b (k + 1) = false)
  ∨ (within b (k + -1) = false ∧ within b k = false ∧ within b (k + 1) = true)
  ∨ (within b (k + -1) = false ∧ within b k = true ∧ within b (k + 1) = true)
  ∨ (within b (k + -1) = true ∧ within b k = true ∧ within b (k + 1) = false)
  ∨ (within b (k + -1) = true ∧ within b k = false ∧ within b (k + 1) = false).
Proof.
  unfold within.
  destruct (Z.leb_spec b (k + -1)), (Z.leb_spec (k + -1) (b + 1)),
    (Z.leb_spec b k), (Z.leb_spec k (b + 1)),
    (Z.leb_spec b (k + 1)), (Z.leb_spec (k + 1) (b + 1));
    try lia; cbn; tauto.
Qed.

(** The rule keeps every cell of a block pattern as it is. *)
Lemma block_rule (f : Z → Z → bool) top left y x :
  (∀ y x, f y x = block_at top left y x) →
  next_alive (of_bool (block_at top left y x))
    (foldr (λ p n, of_bool (f p.1 p.2) + n) 0 (neighbours y x))
  = of_bool (block_at top left y x).
Proof.
  intros Hf. unfold neighbours. cbn [fmap list_fmap foldr fst snd].
  rewrite !Hf, !Z.add_0_r. unfold block_at.
  destruct (within_cases top y) as
    [(-> & -> & ->)|[(-> & -> & ->)|[(-> & -> & ->)|[(-> & -> & ->)|(-> & -> & ->)]]]];
  destruct (within_cases left x) as
    [(-> & -> & ->)|[(-> & -> & ->)|[(-> & -> & ->)|[(-> & -> & ->)|(-> & -> & ->)]]]];
  reflexivity.
Qed.

Lemma live_block w top left y x :
  is_block w top left → live w y x = block_at top left y x.
Proof.
  intros (Ht & Ht' & Hl & Hl' & Hall). unfold live.
  destruct (in_gridb w y x) eqn:E.
  - apply in_gridb_true in E. rewrite (Hall y x E). cbn.
    apply truthy_of_bool.
  - cbn. symmetry. apply not_true_iff_false. intros Hb.
    apply not_true_iff_false in E. apply E, in_gridb_true.
    unfold block_at, within in Hb.
    rewrite !andb_true_iff, !Z.leb_le in Hb. unfold in_grid. lia.
Qed.

(** The update loops change nothing in a world that holds a block. *)
Lemma block_fixed w top left :
  world_wf w → is_block w top left → update_all w = w.
Proof.
  intros Hwf Hb. apply for_each_cell_fixed. intros y x Hy Hx.
  assert (Hg : in_grid w y x) by (by split).
  unfold update_in_place.
  destruct (wf_coords w Hwf y x Hg) as [Hcx Hcy].
  assert (Ha : c_alive (cell_at w y x) = of_bool (block_at top left y x))
    by by apply Hb.
  assert (Hn : next_alive (c_alive (cell_at w y x))
                 (alive_neighbours w (cell_at w y x))
               = c_alive (cell_at w y x)).
  { rewrite alive_neighbours_ok by (by rewrite ?Hcx, ?Hcy).
    rewrite Hcx, Hcy, Ha. unfold live_neighbours.
    rewrite count_filter_sum. apply block_rule.
    intros y' x'. by apply live_block. }
  assert (Hc : (cell_update w (cell_at w y x)).1 = cell_at w y x).
  { unfold cell_update. cbn [fst]. rewrite Hn. by destruct (cell_at w y x). }
  rewrite Hc. apply store_cell_same.
Qed.

(** [world_advance] on a world that its update loops leave as it is:
    nothing changes, the counter included, and the result is 0. *)
Lemma advance_fixed w :
  dims_ok w → is_int (w_iteration w) → update_all w = w →
  world_advance w = (w, 0).
Proof.
  intros Hd Hi Hfix.
  assert (Hc : world_compare w (world_copy w) = 0).
  { apply world_compare_0. destruct (world_copy_dims w Hd) as [-> ->].
    split_and!; try done. intros y x Hg. symmetry.
    by apply world_copy_alive. }
  unfold world_advance. cbv zeta. rewrite Hfix, Hc.
  cbn [truthy of_bool negb Z.eqb orb]. rewrite Z.add_0_r, int_of_id by done.
  by destruct w.
Qed.

(** ** Drawing *)

Local Open Scope string_scope.

Lemma string_app_assoc (s1 s2 s3 : string) :
  (s1 ++ s2) ++ s3 = s1 ++ (s2 ++ s3).
Proof. induction s1 as [|a s1 IH]; cbn; [done|]. by rewrite IH. Qed.

Lemma string_app_nil_r (s : string) : s ++ EmptyString = s.
Proof. induction s as [|a s IH]; cbn; [done|]. by rewrite IH. Qed.

Lemma length_string_of_list_ascii (l : list ascii) :
  String.length (string_of_list_ascii l) = length l.
Proof. induction l as [|a l IH]; cbn; [done|]. by rewrite IH. Qed.

Lemma get_string_of_list_ascii (l : list ascii) (n : nat) :
  String.get n (string_of_list_ascii l) = l !! n.
Proof.
  revert n. induction l as [|a l IH]; intros [|n]; cbn; done.
Qed.

(** The inner loop of [world_draw] appends the characters of a row. *)
Lemma draw_row (f : Z → ascii) (xs : list Z) (stdout : string) :
  foldl (λ stdout x, stdout ++ String (f x) EmptyString) stdout xs
  = stdout ++ string_of_list_ascii (f <$> xs).
Proof.
  revert stdout. induction xs as [|x xs IH]; intros stdout; cbn.
  - by rewrite string_app_nil_r.
  - rewrite IH, string_app_assoc. done.
Qed.

(** The outer loop appends the rows, a newline after each. *)
Lemma draw_rows (f : Z → Z → ascii) (ys xs : list Z) (stdout : string) :
  foldl (λ stdout y,
    foldl (λ stdout x, stdout ++ String (f y x) EmptyString) stdout xs
    ++ String NL EmptyString) stdout ys
  = stdout ++ lines ((λ y, string_of_list_ascii (f y <$> xs)) <$> ys).
Proof.
  revert stdout. induction ys as [|y ys IH]; intros stdout; cbn.
  - by rewrite string_app_nil_r.
  - rewrite IH, draw_row, !string_app_assoc. done.
Qed.

Lemma world_draw_frame w stdout :
  dims_ok w → is_int (w_iteration w) →
  world_draw w stdout = stdout ++ RESET_CURSOR ++ frame_as_drawn w.
Proof.
  intros [Hw Hh] Hi. unfold world_draw, frame_as_drawn, status_line.
  rewrite (draw_rows (λ y x, cell_char (cell_at w y x))).
  unfold printf_ld, printf_d.
  rewrite !long_of_id, int_of_id by (done || lia).
  fold (row_string w). fold (row_strings w).
  rewrite !string_app_assoc. done.
Qed.

Local Close Scope string_scope.

(** * The claims *)

(** C1 fails on the code: [world_advance] passes the world it is updating
    to [cell_update], not the copy, so a cell's count sees the cells
    updated before it in the sweep.  On the horizontal blinker the rule
    against the copy gives the vertical blinker; [world_advance] leaves
    the cells (x, y) = (2,1), (3,1), (1,2), (3,2) alive: the cell at row 1,
    column 3 is counted three live neighbours, where the copy has two. *)
Theorem advance_reads_updated_cells :
  next_generation blinker_world
  = [[0; 0; 0; 0; 0]; [0; 0; 1; 0; 0]; [0; 0; 1; 0; 0]; [0; 0; 1; 0; 0];
     [0; 0; 0; 0; 0]]
  ∧ pattern (world_advance blinker_world).1
    = [[0; 0; 0; 0; 0]; [0; 0; 1; 1; 0]; [0; 1; 0; 1; 0]; [0; 0; 0; 0; 0];
       [0; 0; 0; 0; 0]]
  ∧ c_alive (cell_at (world_advance blinker_world).1 1 3) = 1
  ∧ (cell_update (world_copy blinker_world) (cell_at blinker_world 1 3)).2 = 0
  ∧ alive_neighbours (world_copy blinker_world) (cell_at blinker_world 1 3) = 2
  ∧ alive_neighbours (update_in_place blinker_world 1 2)
      (cell_at blinker_world 1 3) = 3.
Proof. vm_compute. repeat split. Qed.

(** C2: [world_advance] returns 1 iff the updated grid differs from the
    copy taken before the update (a comparison that ignores the iteration
    counters) and the updated grid has a live cell, and 0 otherwise; the
    iteration counter is left alone when the updated grid equals the copy
    and is incremented by exactly 1 otherwise, a live cell or not. *)
Theorem advance_result (w : world) :
  dims_ok w → iteration_ok w →
  let w' := (world_advance w).1 in
  let r := (world_advance w).2 in
  let differs :=
    ∃ y x, in_grid w y x
           ∧ c_alive (cell_at w' y x) ≠ c_alive (cell_at w y x) in
  let populated := ∃ y x, in_grid w y x ∧ c_alive (cell_at w' y x) ≠ 0 in
  (world_compare w' (world_copy w) ≠ 0 ↔ differs)
  ∧ (world_is_empty w' = 0 ↔ populated)
  ∧ (r = 1 ↔ differs ∧ populated)
  ∧ (r = 0 ↔ ¬ (differs ∧ populated))
  ∧ (¬ differs → w_iteration w' = w_iteration w)
  ∧ (differs → w_iteration w' = w_iteration w + 1).
Proof.
  intros Hd Hit. cbv zeta.
  destruct (world_advance_unfold w) as (Hcells & Hw & Hh & Hi & Hr & Hcell).
  cbv zeta in Hi, Hr.
  destruct (update_all_frame w) as (Huw & Huh & _).
  assert (Hcmp : world_compare (world_advance w).1 (world_copy w)
                 = world_compare (update_all w) (world_copy w)).
  { unfold world_compare, cell_at. by rewrite Hcells, Hw, Hh, Huw, Huh. }
  assert (Hemp : world_is_empty (world_advance w).1
                 = world_is_empty (update_all w)).
  { unfold world_is_empty, cell_at. by rewrite Hcells, Hw, Hh, Huw, Huh. }
  rewrite Hcmp, Hemp, Hr, Hi. clear Hcmp Hemp Hr Hi.
  setoid_rewrite Hcell.
  pose proof (advance_compare w Hd) as Hdiff.
  pose proof (world_is_empty_0 (update_all w)) as Hpop.
  unfold in_grid in Hpop. rewrite Huw, Huh in Hpop. fold (in_grid w) in Hpop.
  unfold iteration_ok in Hit.
  destruct (world_compare_range (update_all w) (world_copy w)) as [Hc|Hc];
    destruct (world_is_empty_range (update_all w)) as [He|He];
    rewrite Hc, He in *; cbn [truthy of_bool negb orb Z.eqb];
    rewrite int_of_id by (unfold is_int; lia);
    split_and!; try tauto; try lia;
    intuition (try lia; try done).
Qed.

Lemma advance_result_witness :
  (world_advance blinker_world).2 = 1
  ∧ w_iteration (world_advance blinker_world).1
    = w_iteration blinker_world + 1.
Proof.
  assert (Hd : dims_ok blinker_world) by (apply wf_dims, blinker_world_wf).
  assert (Hi : iteration_ok blinker_world) by (unfold iteration_ok; cbn; lia).
  destruct (advance_result blinker_world Hd Hi)
    as (_ & _ & Hr & _ & _ & Hinc).
  assert (Hg : in_grid blinker_world 1 2)
    by (apply in_gridb_true; vm_compute; reflexivity).
  split.
  - apply Hr. split; exists 1, 2; (split; [exact Hg|]);
      vm_compute; discriminate.
  - apply Hinc. exists 1, 2. split; [exact Hg|]. vm_compute. discriminate.
Defined.

(** C3: for the world [w] that [cell_update] reads and a cell whose stored
    position (x, y) is inside it, the count is the number of live cells
    among the neighbours of (x, y) that lie inside the grid; the neighbours
    are the eight positions around (x, y), never (x, y) itself, and a
    position outside the grid counts for nothing (no wraparound).  A cell
    that is alive is alive afterwards iff 1 < count < 4; a dead one iff
    count = 3. *)
Theorem cell_rule (w : world) (c : cell) :
  world_wf w → in_grid w (c_y c) (c_x c) →
  let n := alive_neighbours w c in
  n = live_neighbours w (c_y c) (c_x c)
  ∧ 0 <= n <= 8
  ∧ length (neighbours (c_y c) (c_x c)) = 8%nat
  ∧ (∀ p, p ∈ neighbours (c_y c) (c_x c)
          ↔ p ≠ (c_y c, c_x c)
            ∧ c_y c - 1 <= p.1 <= c_y c + 1 ∧ c_x c - 1 <= p.2 <= c_x c + 1)
  ∧ (∀ y x, ¬ in_grid w y x → live w y x = false)
  ∧ (c_alive c ≠ 0 →
       ((cell_update w c).2 = 1 ↔ 1 < n < 4)
       ∧ ((cell_update w c).2 = 0 ↔ ¬ 1 < n < 4))
  ∧ (c_alive c = 0 →
       ((cell_update w c).2 = 1 ↔ n = 3)
       ∧ ((cell_update w c).2 = 0 ↔ n ≠ 3))
  ∧ c_alive (cell_update w c).1 = (cell_update w c).2.
Proof.
  intros Hwf Hg n.
  assert (Hn : n = live_neighbours w (c_y c) (c_x c))
    by by apply alive_neighbours_ok.
  split_and!; try done.
  - rewrite Hn. apply live_neighbours_range.
  - rewrite Hn. apply live_neighbours_range.
  - apply elem_of_neighbours.
  - intros y x Hout. unfold live.
    destruct (in_gridb w y x) eqn:E; [|done].
    by apply in_gridb_true in E.
  - intros Ha. rewrite cell_update_snd. fold n. clearbody n.
    unfold next_alive, truthy.
    apply Z.eqb_neq in Ha. rewrite Ha. cbn [negb].
    unfold MIN_SURVIVAL, MAX_SURVIVAL.
    destruct (Z.ltb_spec 1 n), (Z.ltb_spec n 4); cbn; lia.
  - intros Ha. rewrite cell_update_snd. fold n. clearbody n.
    unfold next_alive, truthy.
    rewrite Ha. cbn [Z.eqb negb]. unfold SPAWN.
    destruct (Z.eqb_spec n 3); cbn; lia.
Qed.

Lemma cell_rule_witness :
  alive_neighbours block_world (cell_at block_world 1 1)
  = live_neighbours block_world 1 1.
Proof.
  refine (proj1 (cell_rule block_world (cell_at block_world 1 1)
                   block_world_wf _)).
  apply in_gridb_true. vm_compute. reflexivity.
Defined.

(** C4 fails on the code, by the same in-place update: one [world_advance]
    of the horizontal blinker gives a world that is not the vertical
    blinker, and a second one gives a 2×2 block, not the horizontal blinker
    again.  The iteration counter does go from 0 to 1 to 2. *)
Theorem blinker_does_not_oscillate :
  pattern blinker_world
  = [[0; 0; 0; 0; 0]; [0; 0; 0; 0; 0]; [0; 1; 1; 1; 0]; [0; 0; 0; 0; 0];
     [0; 0; 0; 0; 0]]
  ∧ pattern vertical_blinker_world
    = [[0; 0; 0; 0; 0]; [0; 0; 1; 0; 0]; [0; 0; 1; 0; 0]; [0; 0; 1; 0; 0];
       [0; 0; 0; 0; 0]]
  ∧ pattern (world_advance blinker_world).1
    = [[0; 0; 0; 0; 0]; [0; 0; 1; 1; 0]; [0; 1; 0; 1; 0]; [0; 0; 0; 0; 0];
       [0; 0; 0; 0; 0]]
  ∧ pattern (world_advance (world_advance blinker_world).1).1
    = [[0; 0; 0; 0; 0]; [0; 0; 1; 1; 0]; [0; 0; 1; 1; 0]; [0; 0; 0; 0; 0];
       [0; 0; 0; 0; 0]]
  ∧ w_iteration (world_advance blinker_world).1 = 1
  ∧ w_iteration (world_advance (world_advance blinker_world).1).1 = 2.
Proof. vm_compute. repeat split. Qed.

(** C5: for every grid (of dimensions that fit [world_init]'s [int]
    parameters) and every signed coordinate pair (x, y), passed as
    [cell_update] passes its [int]s, [world_is_in_bounds] returns 1 iff
    0 ≤ x < width and 0 ≤ y < height, and 0 otherwise.  It returns 0 for
    (-1, 0) and for (width, 0); on a grid with at least one cell it returns
    1 for (0, 0) and for (width - 1, height - 1). *)
Theorem is_in_bounds_signed (w : world) (x y : Z) :
  dims_ok w → - 2 ^ 63 <= x < 2 ^ 63 → - 2 ^ 63 <= y < 2 ^ 63 →
  (world_is_in_bounds w (size_t_of x) (size_t_of y) = 1
   ↔ 0 <= x < w_width w ∧ 0 <= y < w_height w)
  ∧ (world_is_in_bounds w (size_t_of x) (size_t_of y) = 0
     ↔ ¬ (0 <= x < w_width w ∧ 0 <= y < w_height w))
  ∧ world_is_in_bounds w (size_t_of (-1)) (size_t_of 0) = 0
  ∧ world_is_in_bounds w (size_t_of (w_width w)) (size_t_of 0) = 0
  ∧ (0 < w_width w → 0 < w_height w →
     world_is_in_bounds w (size_t_of 0) (size_t_of 0) = 1
     ∧ world_is_in_bounds w (size_t_of (w_width w - 1))
                            (size_t_of (w_height w - 1)) = 1).
Proof.
  intros Hd Hx Hy.
  assert (Hno : ∀ x y, - 2 ^ 63 <= x < 2 ^ 63 → - 2 ^ 63 <= y < 2 ^ 63 →
    world_is_in_bounds w (size_t_of x) (size_t_of y) = 0
    ↔ ¬ (0 <= x < w_width w ∧ 0 <= y < w_height w)).
  { intros x' y' Hx' Hy'.
    rewrite <- (world_is_in_bounds_signed w x' y') by done.
    destruct (world_is_in_bounds_range w (size_t_of x') (size_t_of y'));
      lia. }
  pose proof Hd as [Hw Hh].
  split_and!.
  - by apply world_is_in_bounds_signed.
  - by apply Hno.
  - apply Hno; lia.
  - apply Hno; lia.
  - intros Hw0 Hh0. split; apply world_is_in_bounds_signed; (done || lia).
Qed.

Lemma is_in_bounds_signed_witness :
  world_is_in_bounds block_world (size_t_of (-1)) (size_t_of 0) = 0
  ∧ world_is_in_bounds block_world (size_t_of 3) (size_t_of 3) = 1.
Proof.
  assert (Hd : dims_ok block_world) by (apply wf_dims, block_world_wf).
  assert (Hw : w_width block_world = 4) by reflexivity.
  assert (Hh : w_height block_world = 4) by reflexivity.
  destruct (is_in_bounds_signed block_world 3 3 Hd) as (Hin & _ & Hm & _);
    [lia..|].
  split; [exact Hm|]. apply Hin. rewrite Hw, Hh. lia.
Defined.

Local Open Scope string_scope.

(** C6, as the code has it: after the cursor-reset sequence, [world_draw]
    writes exactly [height] rows of [width] characters each, ['o'] for a
    cell whose flag is set and a space for one whose flag is clear, a
    newline ending each row; then a vertical tab (not a blank line), the
    status line [width: <W>, height: <H>, iteration: <G>] and a newline.
    The world is an argument that is only read: in [world_mainloop] the
    world passed to [world_advance] after drawing is the world that was
    drawn. *)
Theorem draw_output (w : world) (stdout : string) :
  dims_ok w → is_int (w_iteration w) →
  world_draw w stdout
  = stdout ++ RESET_CURSOR ++ lines (row_strings w)
    ++ String VT EmptyString ++ status_line w ++ String NL EmptyString
  ∧ length (row_strings w) = Z.to_nat (w_height w)
  ∧ (∀ y, 0 <= y < w_height w →
      row_strings w !! Z.to_nat y = Some (row_string w y)
      ∧ String.length (row_string w y) = Z.to_nat (w_width w)
      ∧ ∀ x, 0 <= x < w_width w →
          String.get (Z.to_nat x) (row_string w y)
          = Some (if (c_alive (cell_at w y x) =? 0)%Z
                  then " "%char else "o"%char))
  ∧ ∀ frames,
      world_mainloop (S frames) w stdout
      = if truthy (world_advance w).2
        then world_mainloop frames (world_advance w).1 (world_draw w stdout)
        else Some ((world_advance w).1, world_draw w stdout).
Proof.
  intros Hd Hi. split_and!;
    [| | |by intros frames; cbn; destruct (world_advance w)].
  - by apply world_draw_frame.
  - unfold row_strings. by rewrite length_fmap, length_seqZ.
  - intros y Hy. split_and!.
    + unfold row_strings. rewrite list_lookup_fmap, lookup_seqZ_lt by lia.
      cbn. do 2 f_equal. lia.
    + unfold row_string.
      by rewrite length_string_of_list_ascii, length_fmap, length_seqZ.
    + intros x Hx. unfold row_string.
      rewrite get_string_of_list_ascii, list_lookup_fmap,
        lookup_seqZ_lt by lia.
      cbn. replace (0 + Z.of_nat (Z.to_nat x)) with x by lia.
      unfold cell_char, truthy.
      by destruct (c_alive (cell_at w y x) =? 0)%Z.
Qed.

Lemma draw_output_witness :
  world_draw block_world EmptyString
  = RESET_CURSOR ++ lines (row_strings block_world)
    ++ String VT EmptyString ++ status_line block_world ++ String NL EmptyString.
Proof.
  refine (proj1 (draw_output block_world EmptyString _ _)).
  - apply wf_dims, block_world_wf.
  - unfold is_int. cbn. lia.
Defined.

(** C6 as stated fails: no blank line separates the rows from the status
    line in what [world_draw] writes. *)
Lemma draw_output_no_blank_line :
  world_draw block_world EmptyString
  ≠ RESET_CURSOR ++ frame_as_specified block_world.
Proof. vm_compute. discriminate. Qed.

Local Close Scope string_scope.

(** C7: in a well-formed world whose live cells are exactly a 2×2 block,
    [world_advance] leaves every alive flag as it is; a second call returns
    0 ("stop"), and does not increment the iteration counter. *)
Theorem block_is_still (w : world) (top left : Z) :
  world_wf w → is_int (w_iteration w) → is_block w top left →
  let w1 := (world_advance w).1 in
  let w2 := (world_advance w1).1 in
  (∀ y x, in_grid w y x →
     c_alive (cell_at w1 y x) = c_alive (cell_at w y x))
  ∧ (world_advance w1).2 = 0
  ∧ w_iteration w2 = w_iteration w1
  ∧ (∀ y x, in_grid w y x →
       c_alive (cell_at w2 y x) = c_alive (cell_at w y x)).
Proof.
  intros Hwf Hi Hb. cbv zeta.
  assert (Hadv : world_advance w = (w, 0)).
  { apply advance_fixed; [apply Hwf|done|]. by apply (block_fixed w top left). }
  rewrite !Hadv. cbn [fst snd]. rewrite !Hadv. done.
Qed.

Lemma block_world_is_block : is_block block_world 1 1.
Proof.
  assert (Hw : w_width block_world = 4) by reflexivity.
  assert (Hh : w_height block_world = 4) by reflexivity.
  unfold is_block, in_grid. rewrite Hw, Hh. split_and!; try lia.
  intros y x [Hy Hx].
  assert (y = 0 ∨ y = 1 ∨ y = 2 ∨ y = 3) as [-> | [-> | [-> | ->] ] ] by lia;
  assert (x = 0 ∨ x = 1 ∨ x = 2 ∨ x = 3) as [-> | [-> | [-> | ->] ] ] by lia;
  vm_compute; reflexivity.
Qed.

Lemma block_is_still_witness :
  (world_advance (world_advance block_world).1).2 = 0
  ∧ w_iteration (world_advance (world_advance block_world).1).1
    = w_iteration (world_advance block_world).1.
Proof.
  assert (Hi : is_int (w_iteration block_world))
    by (unfold is_int; cbn; lia).
  destruct (block_is_still block_world 1 1 block_world_wf Hi
              block_world_is_block) as (_ & Hr & Hg & _).
  split; [exact Hr|exact Hg].
Defined.

(** C8: for every grid G (of dimensions that fit [world_init]'s [int]
    parameters), [world_copy G] has the width, the height and, at every
    position, the alive flag of G; hence [world_compare (world_copy G) G]
    reports equality (0).  [world_compare] reports equality exactly when
    the dimensions and all alive flags agree, and its result does not depend
    on the iteration counters. *)
Theorem clone_equals_original (G : world) :
  dims_ok G →
  w_width (world_copy G) = w_width G
  ∧ w_height (world_copy G) = w_height G
  ∧ (∀ y x, in_grid G y x →
       c_alive (cell_at (world_copy G) y x) = c_alive (cell_at G y x))
  ∧ world_compare (world_copy G) G = 0
  ∧ (∀ w1 w2,
       world_compare w1 w2 = 0
       ↔ w_width w1 = w_width w2 ∧ w_height w1 = w_height w2
         ∧ ∀ y x, in_grid w1 y x →
             c_alive (cell_at w1 y x) = c_alive (cell_at w2 y x))
  ∧ (∀ w1 w2 g1 g2,
       world_compare (with_iteration w1 g1) (with_iteration w2 g2)
       = world_compare w1 w2).
Proof.
  intros Hd. destruct (world_copy_dims G Hd) as [Hw Hh].
  split_and!; [done|done| | | |].
  - intros y x Hg. by apply world_copy_alive.
  - apply world_compare_0. split_and!; try done.
    intros y x Hg. apply world_copy_alive; [done|].
    unfold in_grid in *. by rewrite <- Hw, <- Hh.
  - apply world_compare_0.
  - apply world_compare_with_iteration.
Qed.

Lemma clone_equals_original_witness :
  dims_ok block_world
  ∧ world_compare (world_copy block_world) block_world = 0.
Proof.
  assert (Hd : dims_ok block_world) by (apply wf_dims, block_world_wf).
  split; [exact Hd|].
  exact (proj1 (proj2 (proj2 (proj2 (clone_equals_original block_world Hd))))).
Defined.

(** C9: [world_advance] leaves the width and the height of the world as
    they were, and with them the coordinates stored in the cells: only alive
    flags and the iteration counter may change. *)
Theorem advance_keeps_dimensions (w : world) :
  w_width (world_advance w).1 = w_width w
  ∧ w_height (world_advance w).1 = w_height w
  ∧ ∀ y x,
      c_x (cell_at (world_advance w).1 y x) = c_x (cell_at w y x)
      ∧ c_y (cell_at (world_advance w).1 y x) = c_y (cell_at w y x).
Proof.
  destruct (world_advance_unfold w) as (_ & Hw & Hh & _ & _ & Hc).
  destruct (update_all_frame w) as (_ & _ & _ & Hxy).
  split_and!; [done|done|].
  intros y x. rewrite Hc. apply Hxy.
Qed.

(** C10: every cell stores its own coordinates.  [world_init] establishes
    that the cell at row y, column x has x-field x and y-field y;
    [world_copy], [world_randomize] and [world_advance] keep it so.  The
    count that [cell_update] makes depends on the cell only through the
    stored coordinates, so in a well-formed world the count for the cell at
    row y, column x is the number of live neighbours of (y, x). *)
Theorem cells_store_their_coordinates :
  (∀ width height, coords_ok (world_init width height))
  ∧ (∀ w, coords_ok (world_copy w))
  ∧ (∀ (rng : Type) (srand : Z → rng) (rand : rng → Z * rng) now w,
       coords_ok w → coords_ok (world_randomize rng srand rand now w).1)
  ∧ (∀ w, coords_ok w → coords_ok (world_advance w).1)
  ∧ (∀ w c c', c_x c = c_x c' → c_y c = c_y c' →
       alive_neighbours w c = alive_neighbours w c')
  ∧ (∀ w y x, world_wf w → in_grid w y x →
       alive_neighbours w (cell_at w y x) = live_neighbours w y x).
Proof.
  split_and!.
  - apply world_init_coords.
  - intros w. apply world_copy_inv.
  - apply world_randomize_coords.
  - apply world_advance_coords.
  - apply alive_neighbours_coords.
  - intros w y x Hwf Hg. destruct (wf_coords w Hwf y x Hg) as [Hx Hy].
    rewrite alive_neighbours_ok; [by rewrite Hx, Hy|done|].
    by rewrite Hx, Hy.
Qed.

Lemma cells_store_their_coordinates_witness :
  coords_ok (world_advance block_world).1
  ∧ alive_neighbours block_world (cell_at block_world 1 1)
    = live_neighbours block_world 1 1.
Proof.
  pose proof cells_store_their_coordinates as (_ & _ & _ & Hadv & _ & Hcount).
  split.
  - apply Hadv, wf_coords, block_world_wf.
  - apply Hcount; [apply block_world_wf|].
    apply in_gridb_true. vm_compute. reflexivity.
Defined.

(** * Further properties *)

(** ** Worlds as values *)

(** Two well-shaped worlds of the same dimensions that hold the same cell
    at every position of the grid have the same arrays. *)
Lemma world_cells_ext w1 w2 :
  shape_ok w1 → shape_ok w2 →
  w_width w1 = w_width w2 → w_height w1 = w_height w2 →
  (∀ y x, in_grid w1 y x → cell_at w1 y x = cell_at w2 y x) →
  w_cells w1 = w_cells w2.
Proof.
  intros Hs1 Hs2 Hw Hh Hcell.
  pose proof Hs1 as [Hlen1 Hrows1]. pose proof Hs2 as [Hlen2 Hrows2].
  apply list_eq. intros i.
  destruct (decide (i < length (w_cells w1))%nat) as [Hi|Hi].
  - assert (Hy : 0 <= Z.of_nat i < w_height w1) by lia.
    destruct (lookup_lt_is_Some_2 (w_cells w1) i Hi) as [r1 Hr1].
    destruct (lookup_lt_is_Some_2 (w_cells w2) i) as [r2 Hr2];
      [rewrite Hlen2, <- Hh; lia|].
    rewrite Hr1, Hr2. f_equal.
    assert (Hl1 : length r1 = Z.to_nat (w_width w1)).
    { apply Hrows1. eapply list_elem_of_lookup_2; eauto. }
    assert (Hl2 : length r2 = Z.to_nat (w_width w1)).
    { rewrite Hw. apply Hrows2. eapply list_elem_of_lookup_2; eauto. }
    apply list_eq. intros j.
    destruct (decide (j < length r1)%nat) as [Hj|Hj].
    + assert (Hg : in_grid w1 (Z.of_nat i) (Z.of_nat j))
        by (unfold in_grid; lia).
      assert (Hg2 : in_grid w2 (Z.of_nat i) (Z.of_nat j))
        by (unfold in_grid; lia).
      destruct (cell_at_lookup w1 _ _ Hs1 Hg) as (r1' & Hr1' & Hc1).
      destruct (cell_at_lookup w2 _ _ Hs2 Hg2) as (r2' & Hr2' & Hc2).
      rewrite Nat2Z.id in Hr1', Hr2', Hc1, Hc2.
      assert (r1' = r1) as -> by congruence.
      assert (r2' = r2) as -> by congruence.
      rewrite Hc1, Hc2. f_equal. by apply Hcell.
    + rewrite !(proj2 (lookup_ge_None _ _)); [done|lia..].
  - rewrite !(proj2 (lookup_ge_None _ _)); [done|lia..].
Qed.

(** X1: [world_init] of non-negative [int]s makes a well-formed world of
    the dimensions asked for, with the iteration counter 0 and every cell
    dead, which [world_is_empty] reports as empty. *)
Theorem init_makes_an_empty_world (width height : Z) :
  0 <= width < 2 ^ 31 → 0 <= height < 2 ^ 31 →
  world_wf (world_init width height)
  ∧ w_width (world_init width height) = width
  ∧ w_height (world_init width height) = height
  ∧ w_iteration (world_init width height) = 0
  ∧ (∀ y x, 0 <= y < height → 0 <= x < width →
       cell_at (world_init width height) y x
       = {| c_alive := 0; c_x := x; c_y := y |})
  ∧ world_is_empty (world_init width height) = 1.
Proof.
  intros Hw Hh.
  destruct (world_init_dims width height Hw Hh) as [Ew Eh].
  split_and!; try done.
  - by apply world_init_wf.
  - intros y x Hy Hx. apply cell_at_world_init.
    unfold in_grid. by rewrite Ew, Eh.
  - destruct (world_is_empty_range (world_init width height)) as [H0|]; [|done].
    apply world_is_empty_0 in H0 as (y & x & Hg & Hne).
    by rewrite cell_at_world_init in Hne.
Qed.

Lemma init_makes_an_empty_world_witness :
  world_wf (world_init 3 2) ∧ world_is_empty (world_init 3 2) = 1.
Proof.
  destruct (init_makes_an_empty_world 3 2) as (Hwf & _ & _ & _ & _ & He);
    [lia..|].
  split; [exact Hwf|exact He].
Defined.

(** X2: [world_is_empty] returns 1 exactly when every cell of the grid has
    a zero alive flag, and 0 exactly when some cell has a non-zero one
    (any non-zero flag counts as alive); it returns nothing else.  In
    particular a world with no cell at all is empty. *)
Theorem is_empty_iff_all_dead :
  (∀ w, world_is_empty w = 1
        ↔ ∀ y x, in_grid w y x → c_alive (cell_at w y x) = 0)
  ∧ (∀ w, world_is_empty w = 0
          ↔ ∃ y x, in_grid w y x ∧ c_alive (cell_at w y x) ≠ 0)
  ∧ (∀ w, world_is_empty w = 0 ∨ world_is_empty w = 1)
  ∧ (∀ w, w_width w <= 0 ∨ w_height w <= 0 → world_is_empty w = 1).
Proof.
  assert (H1 : ∀ w, world_is_empty w = 1
                    ↔ ∀ y x, in_grid w y x → c_alive (cell_at w y x) = 0).
  { intros w. split.
    - intros He y x Hg.
      destruct (decide (c_alive (cell_at w y x) = 0)) as [|Hne]; [done|].
      assert (H0 : world_is_empty w = 0)
        by (apply world_is_empty_0; by exists y, x).
      congruence.
    - intros Hall.
      destruct (world_is_empty_range w) as [H0|]; [|done].
      apply world_is_empty_0 in H0 as (y & x & Hg & Hne).
      by destruct Hne; apply Hall. }
  split_and!; [done|apply world_is_empty_0|apply world_is_empty_range|].
  intros w Hdim. apply H1. intros y x [Hy Hx]. lia.
Qed.

(** X3: [world_compare] is an equivalence test: any world compares equal
    (0) to itself, the result does not depend on the order of the
    arguments, and equality is transitive; the result is 0 or 1. *)
Theorem compare_is_an_equivalence :
  (∀ w, world_compare w w = 0)
  ∧ (∀ w1 w2, world_compare w1 w2 = world_compare w2 w1)
  ∧ (∀ w1 w2 w3, world_compare w1 w2 = 0 → world_compare w2 w3 = 0 →
       world_compare w1 w3 = 0)
  ∧ (∀ w1 w2, world_compare w1 w2 = 0 ∨ world_compare w1 w2 = 1).
Proof.
  assert (Hsym : ∀ w1 w2, world_compare w1 w2 = 0 → world_compare w2 w1 = 0).
  { intros w1 w2 H. apply world_compare_0 in H as (Hw & Hh & Hall).
    apply world_compare_0. split_and!; try done.
    intros y x Hg. symmetry. apply Hall.
    unfold in_grid in *. by rewrite Hw, Hh. }
  split_and!.
  - intros w. by apply world_compare_0.
  - intros w1 w2.
    destruct (world_compare_range w1 w2) as [H|H],
             (world_compare_range w2 w1) as [H'|H']; try congruence.
    + apply Hsym in H. congruence.
    + apply Hsym in H'. congruence.
  - intros w1 w2 w3 H12 H23.
    apply world_compare_0 in H12 as (Hw & Hh & Hall).
    apply world_compare_0 in H23 as (Hw' & Hh' & Hall').
    apply world_compare_0. split_and!; try congruence.
    intros y x Hg. rewrite Hall by done. apply Hall'.
    unfold in_grid in *. by rewrite <- Hw, <- Hh.
  - apply world_compare_range.
Qed.

Lemma compare_is_an_equivalence_witness :
  world_compare block_world (world_copy (world_copy block_world)) = 0.
Proof.
  destruct compare_is_an_equivalence as (_ & Hsym & Htrans & _).
  apply (Htrans _ (world_copy block_world)).
  - rewrite Hsym. vm_compute. reflexivity.
  - rewrite Hsym. vm_compute. reflexivity.
Defined.

(** On a world of [int] dimensions whose arrays have these dimensions and
    whose cells store their coordinates, the copy is the world itself but
    for the counter. *)
Lemma world_copy_value w :
  dims_ok w → shape_ok w → coords_ok w → world_copy w = with_iteration w 0.
Proof.
  intros Hd Hs Hc.
  destruct (world_copy_inv w) as (Hs' & Hc' & _ & _ & Hi).
  destruct (world_copy_dims w Hd) as [Hw Hh].
  assert (Hcells : w_cells (world_copy w) = w_cells w).
  { apply world_cells_ext; try done. intros y x Hg.
    assert (Hg' : in_grid w y x)
      by (unfold in_grid in *; by rewrite <- Hw, <- Hh).
    pose proof (world_copy_alive w y x Hd Hg') as Ha.
    destruct (Hc' y x Hg) as [Hx Hy]. destruct (Hc y x Hg') as [Hx' Hy'].
    destruct (cell_at (world_copy w) y x), (cell_at w y x).
    cbn in *. congruence. }
  unfold with_iteration. rewrite <- Hcells, <- Hw, <- Hh, <- Hi.
  by destruct (world_copy w).
Qed.

(** X4: on a world of [int] dimensions whose arrays have these dimensions
    and whose cells store their coordinates, [world_copy] gives the same
    world with the iteration counter set to 0: the counter is not copied.
    Copying a copy changes nothing more. *)
Theorem copy_resets_the_counter (w : world) :
  dims_ok w → shape_ok w → coords_ok w →
  world_copy w = with_iteration w 0
  ∧ w_iteration (world_copy w) = 0
  ∧ world_copy (world_copy w) = world_copy w.
Proof.
  intros Hd Hs Hc.
  assert (Heq : world_copy w = with_iteration w 0)
    by by apply world_copy_value.
  split_and!; [done|by rewrite Heq|].
  rewrite Heq. by rewrite (world_copy_value (with_iteration w 0)).
Qed.

Lemma copy_resets_the_counter_witness :
  world_copy (with_iteration block_world 7)
  = with_iteration (with_iteration block_world 7) 0.
Proof.
  pose proof block_world_wf as [Hd Hs Hc _].
  exact (proj1 (copy_resets_the_counter (with_iteration block_world 7)
                  Hd Hs Hc)).
Defined.

(** ** Sparse worlds *)

(** The call [cell_update(w, &w->cells[y][x])] on a well-formed world
    writes the rule's value for the count of live neighbours of (y, x). *)
Lemma update_in_place_value w y x :
  world_wf w → in_grid w y x →
  update_in_place w y x
  = set_alive w y x
      (next_alive (c_alive (cell_at w y x)) (live_neighbours w y x)).
Proof.
  intros Hwf Hg. rewrite update_in_place_set_alive, cell_update_snd.
  destruct (wf_coords w Hwf y x Hg) as [Hx Hy].
  rewrite alive_neighbours_ok by (by rewrite ?Hx, ?Hy). by rewrite Hx, Hy.
Qed.

Lemma next_alive_few a n : n <= 1 → next_alive a n = 0.
Proof.
  intros Hn. unfold next_alive, MIN_SURVIVAL, MAX_SURVIVAL, SPAWN.
  destruct (truthy a).
  - destruct (Z.ltb_spec 1 n); [lia|done].
  - destruct (Z.eqb_spec n 3); [lia|done].
Qed.

Lemma live_dead_but_at w y0 x0 y x :
  dead_but_at w y0 x0 →
  of_bool (live w y x) = 0
  ∨ (of_bool (live w y x) = 1 ∧ y = y0 ∧ x = x0).
Proof.
  intros Hd. unfold live. destruct (in_gridb w y x) eqn:E; [|by left].
  apply in_gridb_true in E. cbn.
  destruct (decide ((y, x) = (y0, x0))) as [[= -> ->]|Hne].
  - destruct (truthy _); auto.
  - rewrite (Hd y x E Hne). by left.
Qed.

(** With one live cell at most, no cell has two live neighbours. *)
Lemma live_neighbours_dead_but_at w y0 x0 y x :
  dead_but_at w y0 x0 → live_neighbours w y x <= 1.
Proof.
  intros Hd. unfold live_neighbours. rewrite count_filter_sum.
  unfold neighbours. cbn [fmap list_fmap foldr fst snd].
  pose proof (live_dead_but_at w y0 x0 (y + -1) (x + -1) Hd).
  pose proof (live_dead_but_at w y0 x0 (y + -1) (x + 0) Hd).
  pose proof (live_dead_but_at w y0 x0 (y + -1) (x + 1) Hd).
  pose proof (live_dead_but_at w y0 x0 (y + 0) (x + -1) Hd).
  pose proof (live_dead_but_at w y0 x0 (y + 0) (x + 1) Hd).
  pose proof (live_dead_but_at w y0 x0 (y + 1) (x + -1) Hd).
  pose proof (live_dead_but_at w y0 x0 (y + 1) (x + 0) Hd).
  pose proof (live_dead_but_at w y0 x0 (y + 1) (x + 1) Hd).
  lia.
Qed.

(** The update loops kill the last live cell and give birth to none. *)
Lemma update_all_dead_but_at w y0 x0 :
  world_wf w → dead_but_at w y0 x0 → all_dead (update_all w).
Proof.
  intros Hwf Hd y x Hg.
  destruct (update_all_frame w) as (Hw & Hh & _).
  unfold in_grid in Hg. rewrite Hw, Hh in Hg. destruct Hg as [Hy Hx].
  unfold update_all.
  apply (for_each_cell_writes (λ s y x, c_alive (cell_at s y x)) (λ _ _, 0)
           (λ s, world_wf s ∧ w_width s = w_width w
                 ∧ w_height s = w_height w ∧ dead_but_at s y0 x0));
    try done.
  - intros s y' x' Hy' Hx' (Hs & Hsw & Hsh & Hsd).
    assert (Hg' : in_grid s y' x') by (unfold in_grid; by rewrite Hsw, Hsh).
    rewrite update_in_place_value by done.
    rewrite next_alive_few by by eapply live_neighbours_dead_but_at.
    split_and!; try done.
    + apply set_alive_wf; auto.
    + intros y2 x2 Hg2 Hne.
      destruct (decide ((y2, x2) = (y', x'))) as [[= -> ->]|Hne'].
      * apply set_alive_eq; [apply Hs|done].
      * destruct Hg2 as [? ?]. rewrite set_alive_ne by (done || lia).
        by apply Hsd.
  - intros s y' x' Hy' Hx' (Hs & Hsw & Hsh & Hsd).
    assert (Hg' : in_grid s y' x') by (unfold in_grid; by rewrite Hsw, Hsh).
    rewrite update_in_place_value by done.
    rewrite next_alive_few by by eapply live_neighbours_dead_but_at.
    apply set_alive_eq; [apply Hs|done].
  - intros s y1 x1 y2 x2 ? ? ? ? (Hs & Hsw & Hsh & Hsd) Hne.
    assert (Hg' : in_grid s y1 x1) by (unfold in_grid; by rewrite Hsw, Hsh).
    rewrite update_in_place_value by done.
    rewrite set_alive_ne; (done || lia).
Qed.

(** Update loops that change no alive flag of a well-formed world change
    nothing at all. *)
Lemma update_all_ext w :
  world_wf w →
  (∀ y x, in_grid w y x →
     c_alive (cell_at (update_all w) y x) = c_alive (cell_at w y x)) →
  update_all w = w.
Proof.
  intros Hwf Ha.
  destruct (update_all_frame w) as (Hw & Hh & Hi & Hxy).
  assert (Hcells : w_cells (update_all w) = w_cells w).
  { apply world_cells_ext; try done.
    - apply update_all_wf, Hwf.
    - apply Hwf.
    - intros y x Hg. unfold in_grid in Hg. rewrite Hw, Hh in Hg.
      specialize (Ha y x Hg). destruct (Hxy y x) as [Hx Hy].
      destruct (cell_at (update_all w) y x), (cell_at w y x).
      cbn in *. congruence. }
  destruct (update_all w), w. cbn in *. congruence.
Qed.

Lemma all_dead_dead_but_at w y0 x0 : all_dead w → dead_but_at w y0 x0.
Proof. intros Hd y x Hg _. by apply Hd. Qed.

(** [world_advance] on a well-formed world without a live cell. *)
Lemma advance_all_dead w :
  world_wf w → is_int (w_iteration w) → all_dead w →
  world_advance w = (w, 0).
Proof.
  intros Hwf Hi Hd. apply advance_fixed; [apply Hwf|done|].
  apply update_all_ext; [done|]. intros y x Hg.
  rewrite (Hd y x Hg).
  apply (update_all_dead_but_at w 0 0 Hwf (all_dead_dead_but_at w 0 0 Hd)).
  destruct (update_all_frame w) as (Hw & Hh & _).
  unfold in_grid. by rewrite Hw, Hh.
Qed.

(** X5: a well-formed world without a live cell is left exactly as it is by
    [world_advance], iteration counter included, and the call returns 0
    ("stop"), whatever the size of the grid. *)
Theorem empty_world_stops (w : world) :
  world_wf w → is_int (w_iteration w) → all_dead w →
  world_advance w = (w, 0) ∧ world_is_empty (world_advance w).1 = 1.
Proof.
  intros Hwf Hi Hd. rewrite advance_all_dead by done. split; [done|].
  cbn [fst].
  destruct (world_is_empty_range w) as [H0|]; [|done].
  apply world_is_empty_0 in H0 as (y & x & Hg & Hne). by destruct Hne; apply Hd.
Qed.

Lemma empty_world_stops_witness :
  world_advance (world_init 3 2) = (world_init 3 2, 0).
Proof.
  refine (proj1 (empty_world_stops (world_init 3 2) _ _ _)).
  - apply world_init_wf; lia.
  - unfold is_int. cbn. lia.
  - intros y x Hg. by rewrite cell_at_world_init.
Defined.

(** X6: in a well-formed world whose only live cell is the one at row y0,
    column x0, [world_advance] kills that cell (no live neighbour) and
    gives birth to none: afterwards every cell is dead, the call returns 0
    (the world is empty) and the iteration counter has been incremented
    (the world did change). *)
Theorem lonely_cell_dies (w : world) (y0 x0 : Z) :
  world_wf w → iteration_ok w →
  in_grid w y0 x0 → c_alive (cell_at w y0 x0) = 1 → dead_but_at w y0 x0 →
  all_dead (world_advance w).1
  ∧ (world_advance w).2 = 0
  ∧ w_iteration (world_advance w).1 = w_iteration w + 1.
Proof.
  intros Hwf Hit Hg Ha Hd.
  destruct (world_advance_unfold w) as (_ & Hw & Hh & Hi & Hr & Hcell).
  cbv zeta in Hi, Hr.
  pose proof (update_all_dead_but_at w y0 x0 Hwf Hd) as Hdead.
  destruct (update_all_frame w) as (Huw & Huh & _).
  assert (Hgu : in_grid (update_all w) y0 x0)
    by (unfold in_grid; by rewrite Huw, Huh).
  assert (Hcmp : world_compare (update_all w) (world_copy w) = 1).
  { destruct (world_compare_range (update_all w) (world_copy w)) as [H0|];
      [|done].
    exfalso. revert H0. apply advance_compare; [apply Hwf|].
    exists y0, x0. split; [done|]. rewrite (Hdead y0 x0 Hgu), Ha. done. }
  assert (Hemp : world_is_empty (update_all w) = 1).
  { destruct (world_is_empty_range (update_all w)) as [H0|]; [|done].
    apply world_is_empty_0 in H0 as (y & x & Hg' & Hne).
    by destruct Hne; apply Hdead. }
  rewrite Hcmp, Hemp in *. split_and!.
  - intros y x Hg'. rewrite Hcell. apply Hdead.
    unfold in_grid in *. by rewrite Huw, Huh, <- Hw, <- Hh.
  - by rewrite Hr.
  - rewrite Hi. cbn. apply int_of_id. unfold is_int, iteration_ok in *. lia.
Qed.

Lemma lonely_cell_dies_witness :
  (world_advance (with_live (world_init 3 3) [(1, 1)])).2 = 0
  ∧ w_iteration (world_advance (with_live (world_init 3 3) [(1, 1)])).1 = 1.
Proof.
  assert (Hwf : world_wf (with_live (world_init 3 3) [(1, 1)]))
    by (apply world_wfb_ok; vm_compute; reflexivity).
  destruct (lonely_cell_dies (with_live (world_init 3 3) [(1, 1)]) 1 1 Hwf)
    as (_ & Hr & Hi).
  - unfold iteration_ok. cbn. lia.
  - apply in_gridb_true. vm_compute. reflexivity.
  - vm_compute. reflexivity.
  - intros y x [Hy Hx] Hne.
    change (w_height (with_live (world_init 3 3) [(1, 1)])) with 3 in Hy.
    change (w_width (with_live (world_init 3 3) [(1, 1)])) with 3 in Hx.
    assert (y = 0 ∨ y = 1 ∨ y = 2) as [-> | [-> | ->] ] by lia;
    assert (x = 0 ∨ x = 1 ∨ x = 2) as [-> | [-> | ->] ] by lia;
    try (vm_compute; reflexivity).
    by destruct Hne.
  - split; [exact Hr|exact Hi].
Defined.

Lemma world_advance_wf w : world_wf w → world_wf (world_advance w).1.
Proof.
  intros Hwf. destruct (update_all_wf w Hwf) as [Hd Hs Hc Hf]. by split.
Qed.

Lemma world_advance_iteration w :
  iteration_ok w →
  w_iteration w <= w_iteration (world_advance w).1 <= w_iteration w + 1
  ∧ ((world_advance w).2 = 1 →
     w_iteration (world_advance w).1 = w_iteration w + 1).
Proof.
  intros Hit.
  destruct (world_advance_unfold w) as (_ & _ & _ & Hi & Hr & _).
  cbv zeta in Hi, Hr. unfold iteration_ok in Hit.
  rewrite Hr, Hi.
  destruct (world_compare_range (update_all w) (world_copy w)) as [-> | ->];
    cbn; rewrite int_of_id by (unfold is_int; lia); split; (done || lia).
Qed.

(** X7: [world_advance] keeps a world well-formed (dimensions, array
    sizes, stored coordinates, alive flags 0 or 1); it returns 0 or 1; the
    iteration counter never decreases and grows by 1 at most, and it has
    grown by 1 whenever the call returns 1. *)
Theorem advance_keeps_well_formed (w : world) :
  world_wf w → iteration_ok w →
  world_wf (world_advance w).1
  ∧ ((world_advance w).2 = 0 ∨ (world_advance w).2 = 1)
  ∧ w_iteration w <= w_iteration (world_advance w).1 <= w_iteration w + 1
  ∧ ((world_advance w).2 = 1 →
     w_iteration (world_advance w).1 = w_iteration w + 1).
Proof.
  intros Hwf Hit. split; [|split].
  - by apply world_advance_wf.
  - destruct (world_advance_unfold w) as (_ & _ & _ & _ & Hr & _).
    cbv zeta in Hr. rewrite Hr. apply of_bool_range.
  - by apply world_advance_iteration.
Qed.

Lemma advance_keeps_well_formed_witness :
  world_wf (world_advance blinker_world).1.
Proof.
  refine (proj1 (advance_keeps_well_formed blinker_world blinker_world_wf _)).
  unfold iteration_ok. cbn. lia.
Defined.

(** A world on which [world_advance] has returned 0 is at rest. *)
Lemma advance_stop_stable w :
  world_wf w → iteration_ok w → (world_advance w).2 = 0 →
  world_advance (world_advance w).1 = ((world_advance w).1, 0).
Proof.
  intros Hwf Hit H0.
  destruct (world_advance_unfold w) as (Hcells & Hw & Hh & Hi & Hr & Hcell).
  cbv zeta in Hi, Hr. rewrite Hr in H0. unfold iteration_ok in Hit.
  destruct (update_all_frame w) as (Huw & Huh & Hui & _).
  destruct (world_compare_range (update_all w) (world_copy w)) as [Hc|Hc].
  - assert (Hfix : update_all w = w).
    { apply update_all_ext; [done|]. intros y x Hg.
      apply world_compare_0 in Hc as (_ & _ & Hall).
      rewrite Hall by (unfold in_grid; by rewrite Huw, Huh).
      apply world_copy_alive; [apply Hwf|done]. }
    assert (Hadv : world_advance w = (w, 0)).
    { apply advance_fixed; [apply Hwf|unfold is_int; lia|done]. }
    rewrite Hadv. cbn [fst]. exact Hadv.
  - rewrite Hc in H0, Hi. cbn [truthy Z.eqb negb of_bool orb] in H0, Hi.
    destruct (world_is_empty_range (update_all w)) as [He|He];
      rewrite He in H0; [done|].
    apply advance_all_dead.
    + destruct (update_all_wf w Hwf) as [Hd Hs Hco Hf]. by split.
    + rewrite Hi, int_of_id by (unfold is_int; lia). unfold is_int. lia.
    + intros y x Hg. rewrite Hcell.
      destruct (decide (c_alive (cell_at (update_all w) y x) = 0)) as [|Hne];
        [done|].
      assert (world_is_empty (update_all w) = 0); [|congruence].
      apply world_is_empty_0. exists y, x. split; [|done].
      unfold in_grid in *. by rewrite Huw, Huh, <- Hw, <- Hh.
Qed.

(** X8: once [world_advance] has returned 0 on a well-formed world, a
    further call returns 0 again and changes nothing, the iteration counter
    included: a fixed point and an empty world both stay as they are. *)
Theorem stop_is_final (w : world) :
  world_wf w → iteration_ok w → (world_advance w).2 = 0 →
  world_advance (world_advance w).1 = ((world_advance w).1, 0)
  ∧ ∀ n, Nat.iter n (λ s, (world_advance s).1) (world_advance w).1
         = (world_advance w).1.
Proof.
  intros Hwf Hit H0.
  assert (Hs : world_advance (world_advance w).1 = ((world_advance w).1, 0))
    by by apply advance_stop_stable.
  split; [done|]. induction n as [|n IH]; [done|].
  by rewrite Nat.iter_succ, IH, Hs.
Qed.

Lemma stop_is_final_witness :
  world_advance (world_advance block_world).1
  = ((world_advance block_world).1, 0).
Proof.
  refine (proj1 (stop_is_final block_world block_world_wf _ _)).
  - unfold iteration_ok. cbn. lia.
  - vm_compute. reflexivity.
Defined.

(** ** The order of the sweep *)

(** The positions the loops visit before (y, x), then (y, x), then those
    they visit after it. *)
Lemma positions_split height width y x :
  0 <= y < height → 0 <= x < width →
  ∃ before after,
    positions height width = before ++ (y, x) :: after
    ∧ (∀ q, q ∈ before
            ↔ (0 <= q.1 < height ∧ 0 <= q.2 < width)
              ∧ precedes q (y, x) = true)
    ∧ (∀ q, q ∈ after →
            (0 <= q.1 < height ∧ 0 <= q.2 < width)
            ∧ precedes q (y, x) = false ∧ q ≠ (y, x)).
Proof.
  intros Hy Hx.
  assert (Hsplit : ∀ n k, 0 <= k < n →
    seqZ 0 n = seqZ 0 k ++ k :: seqZ (k + 1) (n - k - 1)).
  { intros n k Hk. replace n with (k + (n - k)) at 1 by lia.
    rewrite seqZ_app by lia. f_equal. rewrite seqZ_cons by lia.
    by f_equal. }
  unfold positions. rewrite (Hsplit height y Hy), bind_app. cbn [mbind list_bind].
  rewrite (Hsplit width x Hx), bind_app. cbn [mbind list_bind app].
  rewrite <- (Hsplit width x Hx).
  set (rows := λ ys : list Z, ys ≫= λ y0, seqZ 0 width ≫= λ x0, [(y0, x0)]).
  set (row := λ xs : list Z, xs ≫= λ x0, [(y, x0)]).
  exists (rows (seqZ 0 y) ++ row (seqZ 0 x)),
         (row (seqZ (x + 1) (width - x - 1))
          ++ rows (seqZ (y + 1) (height - y - 1))).
  assert (Hrows : ∀ ys q, q ∈ rows ys ↔ q.1 ∈ ys ∧ 0 <= q.2 < width).
  { intros ys [qy qx]. unfold rows. rewrite list_elem_of_bind. split.
    - intros (y' & Hin & Hy'). apply list_elem_of_bind in Hin as (x' & Hin & Hx').
      apply list_elem_of_singleton in Hin as [= -> ->].
      apply elem_of_seqZ in Hx'. cbn. split; [done|lia].
    - cbn [fst snd]. intros [Hqy Hqx]. exists qy. split; [|done].
      apply list_elem_of_bind. exists qx. split; [|apply elem_of_seqZ; lia].
      by apply list_elem_of_singleton. }
  assert (Hrow : ∀ xs q, q ∈ row xs ↔ q.1 = y ∧ q.2 ∈ xs).
  { intros xs [qy qx]. unfold row. rewrite list_elem_of_bind. split.
    - intros (x' & Hin & Hx').
      by apply list_elem_of_singleton in Hin as [= -> ->].
    - cbn [fst snd]. intros [-> Hqx]. exists qx. split; [|done].
      by apply list_elem_of_singleton. }
  split_and!.
  - rewrite <- !app_assoc. done.
  - intros [qy qx]. rewrite elem_of_app, Hrows, Hrow, !elem_of_seqZ.
    unfold precedes. cbn [fst snd].
    rewrite orb_true_iff, andb_true_iff, !Z.ltb_lt, Z.eqb_eq. lia.
  - intros [qy qx]. rewrite elem_of_app, Hrows, Hrow, !elem_of_seqZ.
    unfold precedes. cbn [fst snd]. intros Hq.
    rewrite orb_false_iff, andb_false_iff, !Z.ltb_ge, Z.eqb_neq.
    split_and!; try lia. intros [= -> ->]. lia.
Qed.

(** A stretch of the sweep keeps the world well-formed and leaves the
    cells it does not visit. *)
Lemma sweep_frame (ps : list (Z * Z)) (s : world) :
  world_wf s → (∀ p, p ∈ ps → in_grid s p.1 p.2) →
  world_wf (foldl (λ s p, update_in_place s p.1 p.2) s ps)
  ∧ w_width (foldl (λ s p, update_in_place s p.1 p.2) s ps) = w_width s
  ∧ w_height (foldl (λ s p, update_in_place s p.1 p.2) s ps) = w_height s
  ∧ ∀ y x, 0 <= y → 0 <= x → (y, x) ∉ ps →
      cell_at (foldl (λ s p, update_in_place s p.1 p.2) s ps) y x
      = cell_at s y x.
Proof.
  revert s. induction ps as [|[py px] ps IH]; intros s Hwf Hps; [done|].
  cbn [foldl fst snd].
  assert (Hg : in_grid s py px) by (apply (Hps (py, px)); left).
  assert (Hwf' : world_wf (update_in_place s py px)).
  { rewrite update_in_place_set_alive.
    apply set_alive_wf; [done|apply next_alive_range|done]. }
  destruct (IH (update_in_place s py px) Hwf') as (Hwf2 & Hw & Hh & Hfr).
  { intros p Hp. apply (Hps p). by right. }
  split_and!; try done.
  intros y x Hy Hx Hnin. apply not_elem_of_cons in Hnin as [Hne Hnin].
  rewrite Hfr by done. rewrite update_in_place_set_alive.
  destruct Hg as [? ?]. apply set_alive_ne; (done || lia).
Qed.

(** The cell at (y, x) after the update loops: the rule applied to its old
    flag and to the neighbours as the sweep shows them. *)
Lemma update_all_sweep w y x :
  world_wf w → in_grid w y x →
  c_alive (cell_at (update_all w) y x)
  = next_alive (c_alive (cell_at w y x)) (sweep_count w (update_all w) y x).
Proof.
  intros Hwf [Hy Hx].
  destruct (positions_split (w_height w) (w_width w) y x Hy Hx)
    as (before & after & Hpos & Hbefore & Hafter).
  set (s1 := foldl (λ s p, update_in_place s p.1 p.2) w before).
  assert (Hfinal : update_all w
    = foldl (λ s p, update_in_place s p.1 p.2) (update_in_place s1 y x) after).
  { unfold update_all. by rewrite for_each_cell_positions, Hpos, foldl_app. }
  destruct (sweep_frame before w Hwf) as (Hwf1 & Hw1 & Hh1 & Hfr1).
  { intros q Hq. apply Hbefore in Hq. unfold in_grid. tauto. }
  fold s1 in Hwf1, Hw1, Hh1, Hfr1.
  assert (Hg1 : in_grid s1 y x) by (unfold in_grid; by rewrite Hw1, Hh1).
  assert (Hpp : precedes (y, x) (y, x) = false).
  { unfold precedes. cbn [fst snd].
    rewrite orb_false_iff, andb_false_iff, !Z.ltb_ge. lia. }
  assert (Hwf2 : world_wf (update_in_place s1 y x)).
  { rewrite update_in_place_set_alive.
    apply set_alive_wf; [done|apply next_alive_range|done]. }
  destruct (sweep_frame after (update_in_place s1 y x) Hwf2)
    as (Hwf3 & Hw3 & Hh3 & Hfr3).
  { intros q Hq. apply Hafter in Hq. unfold in_grid.
    change (w_height (update_in_place s1 y x)) with (w_height s1).
    change (w_width (update_in_place s1 y x)) with (w_width s1).
    rewrite Hw1, Hh1. tauto. }
  rewrite <- Hfinal in Hwf3, Hw3, Hh3, Hfr3.
  change (w_height (update_in_place s1 y x)) with (w_height s1) in Hh3.
  change (w_width (update_in_place s1 y x)) with (w_width s1) in Hw3.
  assert (Hnafter : ∀ q, precedes q (y, x) = true ∨ q = (y, x) → q ∉ after).
  { intros q Hq Hin. apply Hafter in Hin as (_ & Hp & Hne).
    destruct Hq; congruence. }
  rewrite (Hfr3 y x) by (try lia; apply Hnafter; by right).
  rewrite update_in_place_value by done.
  rewrite set_alive_eq by (done || apply Hwf1).
  rewrite (Hfr1 y x); [|lia|lia|].
  2:{ intros Hin. apply Hbefore in Hin as [_ Hin]. congruence. }
  f_equal. unfold live_neighbours, sweep_count. do 2 f_equal.
  apply filter_ext. intros [qy qx]. unfold seen_live, live, in_gridb.
  cbn [fst snd]. rewrite Hw3, Hh3, Hw1, Hh1.
  destruct ((0 <=? qy) && (qy <? w_height w) && (0 <=? qx)
            && (qx <? w_width w)) eqn:E;
    [|cbn [andb]; by destruct (precedes (qy, qx) (y, x))].
  rewrite !andb_true_iff, !Z.leb_le, !Z.ltb_lt in E. cbn [andb].
  destruct (precedes (qy, qx) (y, x)) eqn:Hp.
  - rewrite (Hfr3 qy qx) by (try lia; apply Hnafter; by left).
    rewrite update_in_place_value by done.
    rewrite set_alive_ne; [done|lia..|].
    intros Heq. rewrite Heq in Hp. congruence.
  - rewrite (Hfr1 qy qx); [done|lia|lia|].
    intros Hin. apply Hbefore in Hin as [_ Hin]. congruence.
Qed.

(** X9: what [world_advance] computes.  The update is made in place, in
    row-major order, so on a well-formed world the new flag of the cell at
    (y, x) is the rule applied to its old flag and to a count in which the
    neighbours the sweep has already passed (the three above and the one
    to the left) stand with their new state, the others with their old
    state.  The first cell of the sweep, (0, 0), is therefore updated as
    the synchronous rule would. *)
Theorem advance_sweeps_in_place (w : world) (y x : Z) :
  world_wf w → in_grid w y x →
  c_alive (cell_at (world_advance w).1 y x)
  = next_alive (c_alive (cell_at w y x))
      (sweep_count w (world_advance w).1 y x)
  ∧ (∀ dy dx,
       seen_live w (world_advance w).1 y x (y + dy, x + dx)
       = if (dy <? 0) || ((dy =? 0) && (dx <? 0))
         then live (world_advance w).1 (y + dy) (x + dx)
         else live w (y + dy) (x + dx))
  ∧ (y = 0 → x = 0 →
     c_alive (cell_at (world_advance w).1 y x)
     = next_alive (c_alive (cell_at w y x)) (live_neighbours w y x)).
Proof.
  intros Hwf Hg.
  destruct (world_advance_unfold w) as (_ & Hw & Hh & _ & _ & Hcell).
  assert (Hcount : ∀ y x, sweep_count w (world_advance w).1 y x
                          = sweep_count w (update_all w) y x).
  { reflexivity. }
  assert (Hmain : c_alive (cell_at (world_advance w).1 y x)
    = next_alive (c_alive (cell_at w y x))
        (sweep_count w (world_advance w).1 y x)).
  { rewrite Hcell, Hcount. by apply update_all_sweep. }
  split_and!; [done| |].
  - intros dy dx. unfold seen_live, precedes. cbn [fst snd].
    replace (y + dy <? y) with (dy <? 0) by (apply eq_true_iff_eq; rewrite !Z.ltb_lt; lia).
    replace (y + dy =? y) with (dy =? 0) by (apply eq_true_iff_eq; rewrite !Z.eqb_eq; lia).
    replace (x + dx <? x) with (dx <? 0) by (apply eq_true_iff_eq; rewrite !Z.ltb_lt; lia).
    done.
  - intros -> ->. rewrite Hmain. f_equal.
    unfold sweep_count, live_neighbours. do 2 f_equal.
    apply filter_ext_in. intros [qy qx] Hin.
    apply list_elem_of_In, elem_of_neighbours in Hin as (Hne & Hqy & Hqx).
    cbn [fst snd] in *. unfold seen_live.
    destruct (precedes (qy, qx) (0, 0)) eqn:Hp; [|done].
    unfold precedes in Hp. cbn [fst snd] in Hp.
    rewrite orb_true_iff, andb_true_iff, !Z.ltb_lt, Z.eqb_eq in Hp.
    unfold live, in_gridb. cbn [fst snd].
    destruct (Z.leb_spec 0 qy), (Z.leb_spec 0 qx); try lia;
      cbn [andb]; by rewrite ?andb_false_r.
Qed.

Lemma advance_sweeps_in_place_witness :
  c_alive (cell_at (world_advance blinker_world).1 1 3)
  = next_alive (c_alive (cell_at blinker_world 1 3))
      (sweep_count blinker_world (world_advance blinker_world).1 1 3).
Proof.
  refine (proj1 (advance_sweeps_in_place blinker_world 1 3
                   blinker_world_wf _)).
  apply in_gridb_true. vm_compute. reflexivity.
Defined.

(** A world that the rule leaves as it is, cell by cell, is left as it is
    by the update loops. *)
Lemma still_life_fixed w :
  world_wf w →
  (∀ y x, in_grid w y x →
     next_alive (c_alive (cell_at w y x)) (live_neighbours w y x)
     = c_alive (cell_at w y x)) →
  update_all w = w.
Proof.
  intros Hwf Hstill. apply for_each_cell_fixed. intros y x Hy Hx.
  assert (Hg : in_grid w y x) by (by split).
  rewrite update_in_place_value, Hstill by done.
  unfold set_alive.
  replace {| c_alive := c_alive (cell_at w y x);
             c_x := c_x (cell_at w y x);
             c_y := c_y (cell_at w y x) |}
    with (cell_at w y x) by (by destruct (cell_at w y x)).
  apply store_cell_same.
Qed.

(** X10: the worlds that [world_advance] leaves exactly as they are
    (returning 0) are the still lifes of the rule: the well-formed worlds
    in which every cell's flag is what the rule gives for its count of live
    neighbours.  The in-place sweep does not change which worlds are fixed
    points. *)
Theorem fixed_points_are_still_lifes (w : world) :
  world_wf w → is_int (w_iteration w) →
  world_advance w = (w, 0)
  ↔ ∀ y x, in_grid w y x →
      next_alive (c_alive (cell_at w y x)) (live_neighbours w y x)
      = c_alive (cell_at w y x).
Proof.
  intros Hwf Hi. split.
  - intros Ha y x Hg.
    assert (Hfix : update_all w = w).
    { destruct (world_advance_unfold w) as (Hcells & _).
      destruct (update_all_frame w) as (Hw & Hh & Hit & _).
      rewrite Ha in Hcells. cbn [fst] in Hcells.
      destruct (update_all w), w. cbn in *. congruence. }
    pose proof (update_all_sweep w y x Hwf Hg) as Hs.
    rewrite Hfix in Hs. rewrite Hs at 2. f_equal.
    unfold live_neighbours, sweep_count. do 2 f_equal.
    apply filter_ext. intros q. unfold seen_live.
    by destruct (precedes q (y, x)).
  - intros Hstill. apply advance_fixed; [apply Hwf|done|].
    by apply still_life_fixed.
Qed.

Lemma fixed_points_are_still_lifes_witness :
  next_alive (c_alive (cell_at block_world 1 1))
    (live_neighbours block_world 1 1)
  = c_alive (cell_at block_world 1 1).
Proof.
  refine (proj1 (fixed_points_are_still_lifes block_world block_world_wf _)
            _ 1 1 _).
  - unfold is_int. cbn. lia.
  - vm_compute. reflexivity.
  - apply in_gridb_true. vm_compute. reflexivity.
Defined.

(** ** The reads of [cell_update] *)

(** X11: [cell_update] never reads outside the arrays.  On a well-formed
    world, for a cell whose stored position is in the grid and for each of
    the offsets -1, 0, 1, the neighbour coordinates computed in [size_t]
    and stored in [int]s are the mathematical sums, and whenever
    [world_is_in_bounds] lets the read [w->cells[neighbour_y][neighbour_x]]
    happen, both indices are inside their arrays. *)
Theorem neighbour_reads_in_range (w : world) (c : cell) (y_offset x_offset : Z) :
  world_wf w → in_grid w (c_y c) (c_x c) →
  y_offset ∈ offsets → x_offset ∈ offsets →
  let neighbour_x := int_of (size_t_of (c_x c + size_t_of x_offset)) in
  let neighbour_y := int_of (size_t_of (c_y c + size_t_of y_offset)) in
  neighbour_x = c_x c + x_offset
  ∧ neighbour_y = c_y c + y_offset
  ∧ (truthy (world_is_in_bounds w (size_t_of neighbour_x)
                                  (size_t_of neighbour_y)) = true →
     (Z.to_nat neighbour_y < length (w_cells w))%nat
     ∧ ∃ row, w_cells w !! Z.to_nat neighbour_y = Some row
              ∧ (Z.to_nat neighbour_x < length row)%nat
              ∧ row !! Z.to_nat neighbour_x
                = Some (cell_at w neighbour_y neighbour_x)).
Proof.
  intros Hwf [Hy Hx] Hdy Hdx. cbv zeta.
  pose proof (wf_dims w Hwf) as [Hw Hh].
  assert (Hoff : ∀ d, d ∈ offsets → -1 <= d <= 1).
  { intros d Hd. unfold offsets in Hd.
    repeat (apply elem_of_cons in Hd as [-> | Hd]; [lia|]).
    by apply elem_of_nil in Hd. }
  apply Hoff in Hdy, Hdx.
  rewrite !neighbour_coordinate by lia.
  split_and!; [done|done|]. intros Hb.
  assert (Hb1 : world_is_in_bounds w (size_t_of (c_x c + x_offset))
                  (size_t_of (c_y c + y_offset)) = 1).
  { destruct (world_is_in_bounds_range w (size_t_of (c_x c + x_offset))
                (size_t_of (c_y c + y_offset))) as [H0|]; [|done].
    by rewrite H0 in Hb. }
  apply world_is_in_bounds_signed in Hb1 as [Hnx Hny]; [|done|lia..].
  assert (Hg : in_grid w (c_y c + y_offset) (c_x c + x_offset)) by done.
  destruct (cell_at_lookup w _ _ (wf_shape w Hwf) Hg) as (row & Hrow & Hc).
  split; [by eapply lookup_lt_Some|].
  exists row. split_and!; [done|by eapply lookup_lt_Some|done].
Qed.

Lemma neighbour_reads_in_range_witness :
  int_of (size_t_of (c_x (cell_at block_world 0 0) + size_t_of (-1))) = -1
  ∧ int_of (size_t_of (c_y (cell_at block_world 0 0) + size_t_of 1)) = 1.
Proof.
  assert (Hg : in_grid block_world (c_y (cell_at block_world 0 0))
                 (c_x (cell_at block_world 0 0)))
    by (apply in_gridb_true; vm_compute; reflexivity).
  assert (H1 : 1 ∈ offsets)
    by (do 2 apply list_elem_of_further; apply list_elem_of_here).
  assert (Hm : -1 ∈ offsets) by apply list_elem_of_here.
  destruct (neighbour_reads_in_range block_world (cell_at block_world 0 0)
              1 (-1) block_world_wf Hg H1 Hm) as (Hx & Hy & _).
  split; [exact Hx|exact Hy].
Defined.

(** ** [world_randomize] *)

Lemma NoDup_positions height width : NoDup (positions height width).
Proof.
  unfold positions. apply NoDup_bind.
  - intros y1 y2 p _ _ H1 H2.
    apply list_elem_of_bind in H1 as (x1 & H1 & _).
    apply list_elem_of_bind in H2 as (x2 & H2 & _).
    apply list_elem_of_singleton in H1, H2. congruence.
  - intros y _. apply NoDup_bind.
    + intros x1 x2 p _ _ H1 H2.
      apply list_elem_of_singleton in H1, H2. congruence.
    + intros x _. apply NoDup_singleton.
    + apply NoDup_seqZ.
  - apply NoDup_seqZ.
Qed.

Lemma length_positions height width :
  length (positions height width)
  = (Z.to_nat height * Z.to_nat width)%nat.
Proof.
  assert (Hrow : ∀ (y : Z) (xs : list Z),
            length (xs ≫= λ x, [(y, x)]) = length xs).
  { intros y xs. induction xs as [|x xs IHx]; [done|].
    rewrite bind_cons. cbn [length app]. by rewrite IHx. }
  unfold positions. rewrite <- (length_seqZ 0 height).
  induction (seqZ 0 height) as [|y ys IH]; [done|].
  rewrite bind_cons, length_app, IH, Hrow, length_seqZ. cbn [length]. lia.
Qed.

Section Randomize_draws.

Variable rng : Type.
Variable srand : Z → rng.
Variable rand : rng → Z * rng.

(** A stretch of the loops of [world_randomize]: the cells visited get the
    parities of the draws in turn, the others are left, and the generator
    has made one draw per cell. *)
Lemma randomize_stretch (ps : list (Z * Z)) (s : world) (g : rng) :
  shape_ok s → NoDup ps → (∀ p, p ∈ ps → in_grid s p.1 p.2) →
  (foldl (randomize_step rng rand) (s, g) ps).2
  = after_draws rng rand g (length ps)
  ∧ shape_ok (foldl (randomize_step rng rand) (s, g) ps).1
  ∧ w_width (foldl (randomize_step rng rand) (s, g) ps).1 = w_width s
  ∧ w_height (foldl (randomize_step rng rand) (s, g) ps).1 = w_height s
  ∧ w_iteration (foldl (randomize_step rng rand) (s, g) ps).1 = w_iteration s
  ∧ (∀ y x, 0 <= y → 0 <= x → (y, x) ∉ ps →
       cell_at (foldl (randomize_step rng rand) (s, g) ps).1 y x
       = cell_at s y x)
  ∧ (λ p, c_alive (cell_at (foldl (randomize_step rng rand) (s, g) ps).1
                     p.1 p.2)) <$> ps
    = (λ r, Z.rem r 2) <$> draws rng rand g (length ps).
Proof.
  revert s g. induction ps as [|[py px] ps IH];
    intros s g Hs Hnd Hps; [done|].
  cbn [foldl length draws after_draws fmap list_fmap].
  change (randomize_step rng rand (s, g) (py, px))
    with (set_alive s py px (Z.rem (rand g).1 2), (rand g).2).
  cbn [fst snd].
  apply list.NoDup_cons in Hnd as [Hnin Hnd].
  assert (Hg : in_grid s py px) by (apply (Hps (py, px)); left).
  destruct (IH (set_alive s py px (Z.rem (rand g).1 2)) (rand g).2)
    as (Hg' & Hs' & Hw & Hh & Hi & Hfr & Hfl).
  { by apply set_alive_shape. }
  { done. }
  { intros p Hp. apply (Hps p). by right. }
  split_and!; try done.
  - intros y x Hy Hx Hn. apply not_elem_of_cons in Hn as [Hne Hn].
    rewrite Hfr by done. destruct Hg. apply set_alive_ne; (done || lia).
  - f_equal; [|done]. destruct Hg as [? ?].
    rewrite (Hfr py px) by (done || lia). by apply set_alive_eq.
Qed.

Lemma world_randomize_positions now w :
  world_randomize rng srand rand now w
  = foldl (randomize_step rng rand) (w, srand (now mod 2 ^ 32))
      (positions (w_height w) (w_width w)).
Proof.
  unfold world_randomize. rewrite for_each_cell_positions.
  generalize (w, srand (now mod 2 ^ 32)) as s.
  induction (positions (w_height w) (w_width w)) as [|p ps IH]; intros s;
    [done|].
  cbn [foldl]. rewrite IH. f_equal.
  destruct s as [s g]. unfold randomize_step. cbn [fst snd].
  by destruct (rand g).
Qed.

End Randomize_draws.


Section Randomize_spec.

Variable rng : Type.
Variable srand : Z → rng.
Variable rand : rng → Z * rng.

Lemma draws_nonneg g n :
  (∀ g, 0 <= (rand g).1) → ∀ r, r ∈ draws rng rand g n → 0 <= r.
Proof.
  intros Hpos. revert g. induction n as [|n IH]; intros g r Hr; cbn in Hr.
  - by apply elem_of_nil in Hr.
  - apply elem_of_cons in Hr as [-> | Hr]; [apply Hpos|by eapply IH].
Qed.


(** What the loops of [world_randomize] leave. *)
Lemma randomize_draws_in_order_aux now w :
  shape_ok w →
  (world_randomize rng srand rand now w).2
  = after_draws rng rand (srand (now mod 2 ^ 32))
      (Z.to_nat (w_height w) * Z.to_nat (w_width w))
  ∧ flags_in_order (world_randomize rng srand rand now w).1
    = (λ r, Z.rem r 2)
        <$> draws rng rand (srand (now mod 2 ^ 32))
              (Z.to_nat (w_height w) * Z.to_nat (w_width w))
  ∧ w_width (world_randomize rng srand rand now w).1 = w_width w
  ∧ w_height (world_randomize rng srand rand now w).1 = w_height w
  ∧ w_iteration (world_randomize rng srand rand now w).1 = w_iteration w
  ∧ shape_ok (world_randomize rng srand rand now w).1.
Proof.
  intros Hs. rewrite <- length_positions.
  rewrite world_randomize_positions.
  destruct (randomize_stretch rng rand (positions (w_height w) (w_width w))
              w (srand (now mod 2 ^ 32)) Hs (NoDup_positions _ _))
    as (Hg & Hs' & Hw & Hh & Hi & _ & Hfl).
  { intros [y x] Hp. by apply elem_of_positions in Hp. }
  split_and!; try done.
  unfold flags_in_order. by rewrite Hw, Hh.
Qed.

(** X12: [world_randomize] seeds the generator with the clock value
    reduced to an [unsigned int] and then makes exactly one [rand()] call
    per cell, in row-major order: the alive flags, read in that order, are
    the remainders modulo 2 of the successive draws.  Dimensions, iteration
    counter and array sizes are left as they are, and when [rand()] never
    returns a negative number every flag is 0 or 1. *)
Theorem randomize_draws_in_order (now : Z) (w : world) :
  shape_ok w →
  let g0 := srand (now mod 2 ^ 32) in
  let n := (Z.to_nat (w_height w) * Z.to_nat (w_width w))%nat in
  (world_randomize rng srand rand now w).2 = after_draws rng rand g0 n
  ∧ flags_in_order (world_randomize rng srand rand now w).1
    = (λ r, Z.rem r 2) <$> draws rng rand g0 n
  ∧ w_width (world_randomize rng srand rand now w).1 = w_width w
  ∧ w_height (world_randomize rng srand rand now w).1 = w_height w
  ∧ w_iteration (world_randomize rng srand rand now w).1 = w_iteration w
  ∧ shape_ok (world_randomize rng srand rand now w).1
  ∧ ((∀ g, 0 <= (rand g).1) →
     flags_ok (world_randomize rng srand rand now w).1).
Proof.
  intros Hs. cbv zeta.
  destruct (randomize_draws_in_order_aux now w Hs)
    as (Hg & Hfl & Hw & Hh & Hi & Hs').
  split_and!; try done.
  intros Hpos y x Hgr. unfold in_grid in Hgr. rewrite Hw, Hh in Hgr.
  assert (Hin : (y, x) ∈ positions (w_height w) (w_width w))
    by by apply elem_of_positions.
  apply list_elem_of_lookup in Hin as [i Hi'].
  unfold flags_in_order in Hfl. rewrite Hw, Hh in Hfl.
  assert (Hl : ((λ r, Z.rem r 2)
                  <$> draws rng rand (srand (now mod 2 ^ 32))
                        (Z.to_nat (w_height w) * Z.to_nat (w_width w))) !! i
               = Some (c_alive
                         (cell_at (world_randomize rng srand rand now w).1
                            y x))).
  { rewrite <- Hfl, list_lookup_fmap, Hi'. done. }
  rewrite list_lookup_fmap in Hl.
  destruct (draws _ _ _ _ !! i) as [r|] eqn:Hr; [|done].
  cbn in Hl. injection Hl as <-.
  assert (0 <= r).
  { eapply draws_nonneg; [done|]. eapply list_elem_of_lookup_2, Hr. }
  assert (0 <= Z.rem r 2 < 2) by (apply Z.rem_bound_pos; lia). lia.
Qed.


End Randomize_spec.

Lemma randomize_draws_in_order_witness :
  flags_in_order (world_randomize Z id lcg_rand 7 (world_init 3 2)).1
  = (λ r, Z.rem r 2) <$> draws Z lcg_rand 7 6.
Proof.
  exact (proj1 (proj2 (randomize_draws_in_order Z id lcg_rand 7
                         (world_init 3 2) (world_init_shape 3 2)))).
Defined.


(** ** The main loop and the program *)

Local Open Scope string_scope.

(** [world_draw] appends to the text written so far. *)
Lemma world_draw_append w stdout :
  world_draw w stdout = stdout ++ world_draw w EmptyString.
Proof.
  unfold world_draw.
  rewrite !(draw_rows (λ y x, cell_char (cell_at w y x))).
  cbn [append]. by rewrite !string_app_assoc.
Qed.

(** A loop that ends has drawn the first world after the text that was
    there, has ended on a call of [world_advance] that returned 0, and ends
    in the same way with a larger bound. *)
Lemma world_mainloop_ends frames w stdout w' stdout' :
  world_mainloop frames w stdout = Some (w', stdout') →
  (∃ rest, stdout' = world_draw w stdout ++ rest)
  ∧ (∃ w_last, world_advance w_last = (w', 0))
  ∧ ∀ more, (frames <= more)%nat →
      world_mainloop more w stdout = Some (w', stdout').
Proof.
  revert w stdout. induction frames as [|frames IH]; intros w stdout Hl;
    [done|].
  cbn [world_mainloop] in Hl.
  destruct (world_advance w) as [w1 r] eqn:Ha.
  destruct (truthy r) eqn:Hr.
  - destruct (IH _ _ Hl) as ((rest & Hrest) & Hlast & Hmore).
    split_and!; [|done|].
    + rewrite (world_draw_append w1) in Hrest.
      exists (world_draw w1 EmptyString ++ rest).
      by rewrite Hrest, string_app_assoc.
    + intros [|more] Hle; [lia|]. cbn [world_mainloop].
      rewrite Ha, Hr. apply Hmore. lia.
  - injection Hl as <- <-.
    assert (r = 0) as ->.
    { unfold truthy in Hr. apply negb_false_iff in Hr. by apply Z.eqb_eq. }
    split_and!.
    + exists EmptyString. by rewrite string_app_nil_r.
    + by exists w.
    + intros [|more] Hle; [lia|]. cbn [world_mainloop]. by rewrite Ha.
Qed.

(** X14: whenever [world_mainloop] ends, the text written begins with
    what was there before followed by the frame of the world the loop
    started on (the first world is always drawn), the last call of
    [world_advance] returned 0, and the loop ends in the same way within any
    larger bound on the number of frames. *)
Theorem mainloop_draws_first (frames : nat) (w : world) (stdout : string)
    (w' : world) (stdout' : string) :
  world_mainloop frames w stdout = Some (w', stdout') →
  (∃ rest, stdout' = stdout ++ world_draw w EmptyString ++ rest)
  ∧ (∃ w_last, world_advance w_last = (w', 0))
  ∧ ∀ more, (frames <= more)%nat →
      world_mainloop more w stdout = Some (w', stdout').
Proof.
  intros Hl.
  destruct (world_mainloop_ends _ _ _ _ _ Hl) as ((rest & Hrest) & Hlast & Hm).
  split_and!; [|done|done].
  exists rest. by rewrite Hrest, world_draw_append, string_app_assoc.
Qed.

Lemma mainloop_draws_first_witness :
  ∃ rest,
    world_draw block_world EmptyString
    = EmptyString ++ world_draw block_world EmptyString ++ rest.
Proof.
  refine (proj1 (mainloop_draws_first 1 block_world EmptyString block_world
                   (world_draw block_world EmptyString) _)).
  vm_compute. reflexivity.
Defined.

(** X15: when [world_mainloop], started on a well-formed world whose
    counter has room for the frames allowed, ends, the world it leaves is
    well-formed and at rest ([world_advance] returns 0 on it and leaves it
    as it is), and its iteration counter has grown by the number of
    frames at most. *)
Theorem mainloop_ends_at_rest (frames : nat) (w : world) (stdout : string)
    (w' : world) (stdout' : string) :
  world_wf w →
  0 <= w_iteration w → w_iteration w + Z.of_nat frames <= 2 ^ 31 - 1 →
  world_mainloop frames w stdout = Some (w', stdout') →
  world_wf w'
  ∧ world_advance w' = (w', 0)
  ∧ w_iteration w <= w_iteration w' <= w_iteration w + Z.of_nat frames.
Proof.
  revert w stdout. induction frames as [|frames IH];
    intros w stdout Hwf Hi0 Hi Hl; [done|].
  cbn [world_mainloop] in Hl.
  assert (Hit : iteration_ok w) by (unfold iteration_ok; lia).
  pose proof (world_advance_wf w Hwf) as Hwf1.
  pose proof (world_advance_iteration w Hit) as [Hi1 _].
  pose proof (advance_stop_stable w Hwf Hit) as Hstop.
  destruct (world_advance w) as [w1 r] eqn:Ha. cbn [fst snd] in *.
  destruct (truthy r) eqn:Hr.
  - destruct (IH _ _ Hwf1 ltac:(lia) ltac:(lia) Hl) as (Hwf' & Hrest & Hi').
    split_and!; (done || lia).
  - injection Hl as <- <-.
    assert (r = 0) as ->.
    { unfold truthy in Hr. apply negb_false_iff in Hr. by apply Z.eqb_eq. }
    split_and!; [done|by apply Hstop|lia|lia].
Qed.

Lemma mainloop_ends_at_rest_witness :
  ∃ w' stdout',
    world_mainloop 5 blinker_world EmptyString = Some (w', stdout')
    ∧ world_advance w' = (w', 0).
Proof.
  destruct (world_mainloop 5 blinker_world EmptyString) as [[w' out']|] eqn:E;
    [|vm_compute in E; discriminate].
  exists w', out'. split; [reflexivity|].
  refine (proj1 (proj2 (mainloop_ends_at_rest 5 blinker_world EmptyString
                          w' out' blinker_world_wf _ _ E))).
  - cbn. lia.
  - cbn. lia.
Defined.

(** X16: on a well-formed world without a live cell, or whose live cells
    are a 2×2 block, [world_mainloop] draws one frame and ends, leaving the
    world as it is: the text written is the cursor reset, the rows, the
    vertical tab and the status line, once. *)
Theorem mainloop_on_a_still_world (frames : nat) (w : world)
    (stdout : string) :
  world_wf w → is_int (w_iteration w) →
  all_dead w ∨ (∃ top left, is_block w top left) →
  world_mainloop (S frames) w stdout
  = Some (w, stdout ++ RESET_CURSOR ++ frame_as_drawn w).
Proof.
  intros Hwf Hi Hstill.
  assert (Ha : world_advance w = (w, 0)).
  { destruct Hstill as [Hd | (top & left & Hb)].
    - by apply advance_all_dead.
    - apply advance_fixed; [apply Hwf|done|]. by apply (block_fixed w top left). }
  cbn [world_mainloop]. rewrite Ha. cbn.
  by rewrite world_draw_frame by (done || apply Hwf).
Qed.

Lemma mainloop_on_a_still_world_witness :
  world_mainloop 1 block_world EmptyString
  = Some (block_world, EmptyString ++ RESET_CURSOR ++ frame_as_drawn block_world).
Proof.
  apply (mainloop_on_a_still_world 0 block_world EmptyString block_world_wf).
  - unfold is_int. cbn. lia.
  - right. exists 1, 1. apply block_world_is_block.
Defined.

Lemma positions_nil height width :
  height <= 0 ∨ width <= 0 → positions height width = [].
Proof.
  intros Hz.
  destruct (positions height width) as [|[y x] ps] eqn:E; [done|].
  assert (Hin : (y, x) ∈ positions height width) by (rewrite E; left).
  apply elem_of_positions in Hin. lia.
Qed.

Section Main_spec.

Variable atoi : string → Z.
Variable rng : Type.
Variable srand : Z → rng.
Variable rand : rng → Z * rng.

(** X17: [main].  With an argument count other than 3 it writes the usage
    line and returns [EXIT_FAILURE], and nothing else happens.  With two
    arguments that [atoi] reads as non-negative [int]s of which one is 0,
    the grid has no cell: the program clears the screen, draws one frame
    ([height] empty rows and the status line) and returns [EXIT_SUCCESS].
    Whenever it returns with two arguments, it returns [EXIT_SUCCESS] and
    has written the screen-clear sequence and then the frame of the
    randomized world first. *)
Theorem main_runs (now : Z) (stdout : string) :
  (∀ frames argv, length argv ≠ 3%nat →
     main atoi rng srand rand now frames argv stdout
     = Some (EXIT_FAILURE,
             stdout ++ "Usage: game-of-life <width> <height>"
                    ++ String NL EmptyString))
  ∧ (∀ frames name a1 a2,
       0 <= atoi a1 < 2 ^ 31 → 0 <= atoi a2 < 2 ^ 31 →
       atoi a1 = 0 ∨ atoi a2 = 0 →
       main atoi rng srand rand now (S frames) [name; a1; a2] stdout
       = Some (EXIT_SUCCESS,
               stdout ++ CLEAR_TERM ++ RESET_CURSOR
               ++ frame_as_drawn (world_init (atoi a1) (atoi a2))))
  ∧ (∀ frames name a1 a2 status stdout',
       main atoi rng srand rand now frames [name; a1; a2] stdout
       = Some (status, stdout') →
       status = EXIT_SUCCESS
       ∧ ∃ rest,
           stdout'
           = stdout ++ CLEAR_TERM
             ++ world_draw
                  (world_randomize rng srand rand now
                     (world_init (int_of (size_t_of (atoi a1)))
                                 (int_of (size_t_of (atoi a2))))).1
                  EmptyString
             ++ rest).
Proof.
  split_and!.
  - intros frames argv Hlen. unfold main.
    destruct (Z.eqb_spec (Z.of_nat (length argv)) 3) as [Heq|Hne]; [lia|done].
  - intros frames name a1 a2 H1 H2 Hz. unfold main.
    cbn [length nth]. cbn [Z.of_nat Pos.of_succ_nat Pos.succ Z.eqb Pos.eqb negb].
    rewrite !size_t_of_id by (unfold is_size_t; lia).
    rewrite !int_of_id by (unfold is_int; lia).
    set (w := world_init (atoi a1) (atoi a2)).
    destruct (world_init_dims (atoi a1) (atoi a2) H1 H2) as [Hw Hh].
    fold w in Hw, Hh.
    assert (Hwf : world_wf w) by by apply world_init_wf.
    assert (Hpos : positions (w_height w) (w_width w) = []).
    { apply positions_nil. rewrite Hw, Hh. lia. }
    assert (Hrand : (world_randomize rng srand rand now w).1 = w).
    { by rewrite world_randomize_positions, Hpos. }
    rewrite Hrand.
    assert (Ha : world_advance w = (w, 0)).
    { apply advance_fixed; [apply Hwf|by unfold is_int|].
      unfold update_all. by rewrite for_each_cell_positions, Hpos. }
    cbn [world_mainloop]. rewrite Ha. cbn [truthy Z.eqb negb].
    rewrite world_draw_frame by (apply Hwf || by unfold is_int).
    by rewrite !string_app_assoc.
  - intros frames name a1 a2 status stdout' Hm. unfold main in Hm.
    cbn [length nth] in Hm.
    cbn [Z.of_nat Pos.of_succ_nat Pos.succ Z.eqb Pos.eqb negb] in Hm.
    destruct (world_mainloop _ _ _) as [[w' out']|] eqn:Hl; [|done].
    injection Hm as <- <-. split; [done|].
    apply world_mainloop_ends in Hl as ((rest & Hrest) & _ & _).
    exists rest. by rewrite Hrest, world_draw_append, !string_app_assoc.
Qed.

End Main_spec.

Lemma main_runs_witness :
  main (λ _, 0) Z id lcg_rand 7 1 ["life"; "0"; "0"] EmptyString
  = Some (EXIT_SUCCESS,
          EmptyString ++ CLEAR_TERM ++ RESET_CURSOR
          ++ frame_as_drawn (world_init 0 0)).
Proof.
  apply (proj1 (proj2 (main_runs (λ _, 0) Z id lcg_rand 7 EmptyString)));
    (lia || by left).
Defined.

Local Close Scope string_scope.
